(** * MinuteTaker: the job-tracking engine of the client

    A shallow embedding of [src/api/apiService.ts] (the shared Socket.IO
    connection, [getLastJobData], [joinJobRoom]) and of the engine part of
    [src/pages/MinutesFrame.tsx] (the mount effect with its fetch chain,
    [handleNewJobCreated], the push callbacks), followed by the properties of
    the specification that concern them.

    JavaScript state is threaded explicitly: the component state, the
    browser's [localStorage], the module-level socket singleton, the console
    and the list of issued pull requests form one [World]; every function of
    the source is a computation [M A] that may return or throw while changing
    the world. Closures that the source stores or hands around (socket
    listeners, the callbacks given to [joinJobRoom], the returned cleanup) are
    represented by the constructor that names the place where the closure is
    written, together with the variables it captures. *)

From Stdlib Require Import ZArith Ascii String List.
From stdpp Require Import base strings gmap list pretty.

Set Warnings "-register-all".
Open Scope string_scope.
Open Scope list_scope.

(** ** Values *)

(** A value that can cross the wire or sit in [localStorage] as JSON.  A
    TypeScript [any] is [option json], with [None] for [undefined].  The engine
    never computes with numbers, it only tests them for truthiness, so a
    number is kept as an integer. *)
Inductive json : Type :=
  | JNull
  | JBool (b : bool)
  | JNum (n : Z)
  | JStr (s : string)
  | JArr (elems : list json)
  | JObj (members : list (string * json)).

(** What [if (v)], [v && _] and [v || _] test. *)
Definition truthy (v : json) : bool :=
  match v with
  | JNull => false
  | JBool b => b
  | JNum n => negb (n =? 0)%Z
  | JStr s => negb (String.eqb s "")
  | JArr _ | JObj _ => true
  end.

Definition truthy_any (v : option json) : bool :=
  match v with
  | None => false
  | Some v => truthy v
  end.

(** A string or [null], as [localStorage.getItem] returns it. *)
Definition truthy_str (s : option string) : bool :=
  match s with
  | None => false
  | Some s => negb (String.eqb s "")
  end.

(** The member of an object literal; a key that occurs twice keeps its
    last value. *)
Fixpoint member (k : string) (ms : list (string * json)) : option json :=
  match ms with
  | [] => None
  | (k', v) :: rest =>
      match member k rest with
      | Some v' => Some v'
      | None => if String.eqb k k' then Some v else None
      end
  end.

(** [v === s] for a string [s]. *)
Definition strict_eq_str (v : option json) (s : string) : bool :=
  match v with
  | Some (JStr s') => String.eqb s' s
  | _ => false
  end.

(** String conversion inside a template literal.  The numbers of this model
    are integers and are printed in decimal, which is the text the language
    gives for an integer of magnitude below 2^53 (beyond, it rounds, and from
    10^21 on it writes an exponent); an object is printed as the inherited
    [toString] prints it.  The properties that state a converted text are
    about strings ([textual_error]). *)
Fixpoint to_String (v : json) : string :=
  match v with
  | JNull => "null"
  | JBool true => "true"
  | JBool false => "false"
  | JNum n => pretty n
  | JStr s => s
  | JArr l =>
      (fix join (l : list json) : string :=
         match l with
         | [] => ""
         | [x] => match x with JNull => "" | _ => to_String x end
         | x :: rest =>
             (match x with JNull => "" | _ => to_String x end) +:+ "," +:+ join rest
         end) l
  | JObj _ => "[object Object]"
  end.

(** The two built-in functions of the [JSON] object.  [JSON_parse] gives
    [None] where the built-in throws a [SyntaxError]. *)
Class JSONBuiltin : Type := {
  JSON_parse : string → option json;
  JSON_stringify : json → string
}.

(** ** Exceptions, logging *)

Inductive Exn : Type :=
  | TypeError (msg : string)
  | SyntaxError
  | QuotaExceededError
  | Error (msg : string).

Inductive Outcome (A : Type) : Type :=
  | Return (a : A)
  | Throw (e : Exn).
Arguments Return {A} a.
Arguments Throw {A} e.

Inductive LogArg : Type :=
  | Txt (s : string)
  | Val (v : option json)
  | Exc (e : Exn).

Inductive LogEntry : Type :=
  | console_log_entry (args : list LogArg)
  | console_error_entry (args : list LogArg).

Definition is_console_error (e : LogEntry) : bool :=
  match e with console_error_entry _ => true | _ => false end.

(** ** The world the engine runs in *)

(** The [useState] cells of [MinutesFrame] that the engine owns
    (MinutesFrame.tsx:12-15).  [jobData] is [any | null]: [JNull] is [null]. *)
Record FrameState : Type := {
  activeJobId : option string;
  jobData : json;
  error : option string;
  loading : bool
}.

(** [localStorage]: string keys to string values.  With a quota, a write
    that would make keys and values together longer than the quota throws
    and stores nothing. *)
Record Storage : Type := {
  items : gmap string string;
  quota : option nat
}.

(** A function registered on the socket.  The first two are the listeners of
    [getSocket] (apiService.ts:47 and 51); the other two are the arrow
    functions of [joinJobRoom] (apiService.ts:134 and 142), which capture
    [jobId] and the caller's callback. *)
Inductive Callback : Type :=
  | EffectOnUpdate       (* MinutesFrame.tsx:67 *)
  | EffectOnComplete     (* MinutesFrame.tsx:71 *)
  | NewJobOnUpdate       (* MinutesFrame.tsx:133 *)
  | NewJobOnComplete.    (* MinutesFrame.tsx:136 *)

Inductive Listener : Type :=
  | LogConnect
  | LogConnectError
  | RoomUpdate (jobId : string) (onUpdate : Callback)
  | RoomComplete (jobId : string) (onComplete : Callback).

(** The Socket.IO client object: per event name the listeners in the order of
    their registration, and what was sent to the server so far. *)
Record Socket : Type := {
  listeners : gmap string (list Listener);
  emitted : list (string * json)
}.

Record World : Type := {
  frame : FrameState;
  localStorage : Storage;
  socket : option Socket;          (* [let socket: any = null], apiService.ts:31 *)
  console : list LogEntry;
  requests : list string           (* URLs handed to [fetch] *)
}.

Definition with_frame (f : FrameState → FrameState) (w : World) : World :=
  {| frame := f (frame w); localStorage := localStorage w; socket := socket w;
     console := console w; requests := requests w |}.

Definition with_localStorage (f : Storage → Storage) (w : World) : World :=
  {| frame := frame w; localStorage := f (localStorage w); socket := socket w;
     console := console w; requests := requests w |}.

Definition with_socket (f : option Socket → option Socket) (w : World) : World :=
  {| frame := frame w; localStorage := localStorage w; socket := f (socket w);
     console := console w; requests := requests w |}.

Definition with_console (f : list LogEntry → list LogEntry) (w : World) : World :=
  {| frame := frame w; localStorage := localStorage w; socket := socket w;
     console := f (console w); requests := requests w |}.

Definition with_requests (f : list string → list string) (w : World) : World :=
  {| frame := frame w; localStorage := localStorage w; socket := socket w;
     console := console w; requests := f (requests w) |}.

(** ** Computations *)

Definition M (A : Type) : Type := World → Outcome A * World.

Definition ret {A} (a : A) : M A := λ w, (Return a, w).

Definition bind {A B} (m : M A) (k : A → M B) : M B := λ w,
  match m w with
  | (Return a, w') => k a w'
  | (Throw e, w') => (Throw e, w')
  end.

Definition throw {A} (e : Exn) : M A := λ w, (Throw e, w).

(** [try { m } catch (e) { h e }] *)
Definition try_catch {A} (m : M A) (h : Exn → M A) : M A := λ w,
  match m w with
  | (Return a, w') => (Return a, w')
  | (Throw e, w') => h e w'
  end.

Definition modify (f : World → World) : M unit := λ w, (Return (), f w).

#[global] Instance M_ret : MRet M := @ret.
#[global] Instance M_bind : MBind M := λ A B k m, bind m k.

(** The world a computation leaves, and its outcome. *)
Definition exec {A} (m : M A) (w : World) : World := snd (m w).
Definition outcome {A} (m : M A) (w : World) : Outcome A := fst (m w).

(** *** Console *)

Definition console_log (args : list LogArg) : M unit :=
  modify (with_console (λ c, c ++ [console_log_entry args])).

Definition console_error (args : list LogArg) : M unit :=
  modify (with_console (λ c, c ++ [console_error_entry args])).

(** *** State setters *)

Definition setActiveJobId (v : option string) : M unit :=
  modify (with_frame (λ s, {| activeJobId := v; jobData := jobData s;
                              error := error s; loading := loading s |})).

Definition setJobData (v : json) : M unit :=
  modify (with_frame (λ s, {| activeJobId := activeJobId s; jobData := v;
                              error := error s; loading := loading s |})).

Definition setError (v : option string) : M unit :=
  modify (with_frame (λ s, {| activeJobId := activeJobId s; jobData := jobData s;
                              error := v; loading := loading s |})).

Definition setLoading (v : bool) : M unit :=
  modify (with_frame (λ s, {| activeJobId := activeJobId s; jobData := jobData s;
                              error := error s; loading := v |})).

(** *** localStorage *)

Definition storage_size (m : gmap string string) : nat :=
  map_fold (λ k v acc, (String.length k + String.length v + acc)%nat) 0%nat m.

Definition over_quota (q : option nat) (m : gmap string string) : bool :=
  match q with
  | None => false
  | Some q => (q <? storage_size m)%nat
  end.

Definition localStorage_getItem (k : string) : M (option string) := λ w,
  (Return (items (localStorage w) !! k), w).

Definition localStorage_setItem (k v : string) : M unit := λ w,
  let st := localStorage w in
  let items' := <[k := v]> (items st) in
  if over_quota (quota st) items' then (Throw QuotaExceededError, w)
  else (Return (), with_localStorage (λ _, {| items := items'; quota := quota st |}) w).

(** *** The socket object *)

Definition Socket_on (ev : string) (l : Listener) (s : Socket) : Socket :=
  {| listeners := <[ev := default [] (listeners s !! ev) ++ [l]]> (listeners s);
     emitted := emitted s |}.

(** [s.off(ev)] without a function argument removes every listener of [ev]. *)
Definition Socket_off (ev : string) (s : Socket) : Socket :=
  {| listeners := delete ev (listeners s); emitted := emitted s |}.

Definition Socket_emit (ev : string) (data : json) (s : Socket) : Socket :=
  {| listeners := listeners s; emitted := emitted s ++ [(ev, data)] |}.

Definition s_on (ev : string) (l : Listener) : M unit :=
  modify (with_socket (fmap (Socket_on ev l))).

Definition s_off (ev : string) : M unit :=
  modify (with_socket (fmap (Socket_off ev))).

Definition s_emit (ev : string) (data : json) : M unit :=
  modify (with_socket (fmap (Socket_emit ev data))).

(** [io(SOCKET_URL, {...})]: a fresh client, nothing registered, nothing sent. *)
Definition io : Socket := {| listeners := ∅; emitted := [] |}.

(** The listener table of the shared socket, empty before the socket
    exists, and the listeners of one event. *)
Definition table (w : World) : gmap string (list Listener) :=
  match socket w with
  | None => ∅
  | Some s => listeners s
  end.

Definition listeners_of (ev : string) (w : World) : list Listener :=
  default [] (table w !! ev).

Definition emitted_of (w : World) : list (string * json) :=
  match socket w with
  | None => []
  | Some s => emitted s
  end.

(** ** apiService.ts *)

(** [getSocket], apiService.ts:36-57. *)
Definition getSocket : M unit := λ w,
  match socket w with
  | Some _ => (Return (), w)
  | None =>
      (modify (with_socket (λ _, Some io));;
       s_on "connect" LogConnect;;
       s_on "connect_error" LogConnectError) w
  end.

(** Property access [d.k]: a [TypeError] on [null], [undefined] on a missing
    key.  (The keys read by the engine, [job_id], [status], [minutes] and
    [error], are no built-in property of a string, a number, a boolean or an
    array, so these give [undefined].) *)
Definition get_prop (d : json) (k : string) : M (option json) :=
  match d with
  | JNull => throw (TypeError "Cannot read properties of null")
  | JObj ms => ret (member k ms)
  | _ => ret None
  end.

Section Engine.
Context `{JSONBuiltin}.

Definition JSON_parse_M (s : string) : M json :=
  match JSON_parse s with
  | Some v => ret v
  | None => throw SyntaxError
  end.

(** [getLastJobData], apiService.ts:104-119. *)
Definition getLastJobData : M (option string * json) :=
  try_catch
    (jobId ← localStorage_getItem "lastJobId";
     jobDataStr ← localStorage_getItem "lastJobData";
     jobData ← match jobDataStr with
               | Some str => if truthy_str jobDataStr then JSON_parse_M str else ret JNull
               | None => ret JNull
               end;
     ret (jobId, jobData))
    (λ e,
       console_error [Txt "Error retrieving job data from localStorage:"; Exc e];;
       ret (None, JNull)).

(** The function returned by [joinJobRoom], apiService.ts:152-157.  It
    captures only [s], the shared socket. *)
Inductive Cleanup : Type := OffProcessingEvents.

Definition run_cleanup (c : Cleanup) : M unit :=
  match c with
  | OffProcessingEvents =>
      s_off "processing_update";;
      s_off "processing_complete";;
      s_off "processing_error"
  end.

(** [joinJobRoom], apiService.ts:124-158. *)
Definition joinJobRoom (jobId : string) (onUpdate onComplete : option Callback)
  : M Cleanup :=
  getSocket;;
  s_off "processing_update";;
  s_off "processing_complete";;
  s_off "processing_error";;
  match onUpdate with
  | Some cb => s_on "processing_update" (RoomUpdate jobId cb)
  | None => ret ()
  end;;
  match onComplete with
  | Some cb => s_on "processing_complete" (RoomComplete jobId cb)
  | None => ret ()
  end;;
  s_emit "rejoin_job" (JObj [("job_id", JStr jobId)]);;
  ret OffProcessingEvents.

(** ** MinutesFrame.tsx *)

(** The bodies of the callbacks handed to [joinJobRoom]: MinutesFrame.tsx:67-70
    and 133-135 for updates, 71-82 and 136-145 for completion. *)
Definition run_callback (cb : Callback) (data : json) : M unit :=
  match cb with
  | EffectOnUpdate | NewJobOnUpdate =>
      console_log [Txt "Processing update:"; Val (Some data)]
  | EffectOnComplete | NewJobOnComplete =>
      console_log [Txt "Processing complete:"; Val (Some data)];;
      setJobData data;;
      try_catch
        (localStorage_setItem "lastJobData" (JSON_stringify data))
        (λ e, console_error [Txt "Error storing job data in localStorage:"; Exc e])
  end.

(** What a registered listener does with the payload of an event. *)
Definition run_listener (l : Listener) (data : option json) : M unit :=
  match l with
  | LogConnect => console_log [Txt "Socket connected:"]
  | LogConnectError => console_error [Txt "Socket connection error:"; Val data]
  | RoomUpdate jobId onUpdate =>
      match data with
      | None => throw (TypeError "Cannot read properties of undefined")
      | Some d =>
          job_id ← get_prop d "job_id";
          if strict_eq_str job_id jobId then run_callback onUpdate d else ret ()
      end
  | RoomComplete jobId onComplete =>
      match data with
      | None => throw (TypeError "Cannot read properties of undefined")
      | Some d =>
          job_id ← get_prop d "job_id";
          if strict_eq_str job_id jobId then run_callback onComplete d else ret ()
      end
  end.

Fixpoint run_listeners (ls : list Listener) (data : option json) : M unit :=
  match ls with
  | [] => ret ()
  | l :: rest => run_listener l data;; run_listeners rest data
  end.

(** The socket receives event [ev] with payload [data]: the listeners
    registered for [ev] at that moment run in order of registration; an
    exception in one of them ends the delivery. *)
Definition dispatch (ev : string) (data : option json) : M unit := λ w,
  run_listeners (listeners_of ev w) data w.

(** How the pull request can end: no response at all, or a response with a
    status code and a body ([None] where the body is not JSON). *)
Inductive FetchResult : Type :=
  | NetworkError
  | Response (status : nat) (body : option json).

Definition response_ok (status : nat) : bool :=
  (200 <=? status)%nat && (status <=? 299)%nat.

Definition fetch (url : string) : M unit :=
  modify (with_requests (λ r, r ++ [url])).

(** First [.then], MinutesFrame.tsx:34-39. *)
Definition fetch_then_response (r : FetchResult) : M json :=
  match r with
  | NetworkError => throw (TypeError "Failed to fetch")
  | Response status body =>
      if negb (response_ok status) then throw (Error "Failed to fetch job data")
      else match body with
           | Some data => ret data
           | None => throw SyntaxError
           end
  end.

(** Second [.then], MinutesFrame.tsx:40-54. *)
Definition fetch_then_data (data : json) : M unit :=
  console_log [Txt "Fetched job data:"; Val (Some data)];;
  status ← get_prop data "status";
  completed ← (if strict_eq_str status "completed"
               then minutes ← get_prop data "minutes"; ret (truthy_any minutes)
               else ret false);
  if (completed : bool) then
    setJobData data;;
    try_catch
      (localStorage_setItem "lastJobData" (JSON_stringify data))
      (λ e, console_error [Txt "Error storing job data in localStorage:"; Exc e])
  else
    status ← get_prop data "status";
    if strict_eq_str status "error" then
      err ← get_prop data "error";
      setError (Some ("Error: " +:+
                      match err with
                      | Some e => if truthy e then to_String e else "Unknown error"
                      | None => "Unknown error"
                      end))
    else ret ().

(** [.catch], MinutesFrame.tsx:55-58. *)
Definition fetch_catch (err : Exn) : M unit :=
  console_error [Txt "Error fetching job data:"; Exc err];;
  setError (Some "Failed to load job data. Please try again.").

(** [.finally(f)]: [f] runs whatever the outcome, which is kept unless [f]
    throws. *)
Definition finally {A} (m : M A) (f : M unit) : M A := λ w,
  match m w with
  | (o, w') =>
      match f w' with
      | (Return _, w'') => (o, w'')
      | (Throw e, w'') => (Throw e, w'')
      end
  end.

(** The promise chain of the mount effect, run when the request settles:
    MinutesFrame.tsx:33-61. *)
Definition onFetchResult (r : FetchResult) : M unit :=
  finally
    (try_catch (data ← fetch_then_response r; fetch_then_data data) fetch_catch)
    (setLoading false).

(** The effect run once at mount, MinutesFrame.tsx:18-88.  The result is
    the effect's cleanup, if it returns one. *)
Definition mountEffect : M (option Cleanup) :=
  '(jobId, jobData) ← getLastJobData;
  match jobId with
  | Some id =>
      if truthy_str jobId then
        setActiveJobId (Some id);;
        console_log [Txt ("Retrieved job ID from localStorage: " +:+ id)];;
        (if truthy jobData then
           setJobData jobData;;
           console_log [Txt "Retrieved job data from localStorage"]
         else
           setLoading true;;
           fetch ("http://localhost:5000/job_status/" +:+ id));;
        cleanup ← joinJobRoom id (Some EffectOnUpdate) (Some EffectOnComplete);
        ret (Some cleanup)
      else ret None
  | None => ret None
  end.

(** [handleNewJobCreated], MinutesFrame.tsx:113-147. *)
Definition handleNewJobCreated (jobId : string) (data : option json) : M Cleanup :=
  console_log [Txt "New job created:"; Val (Some (JStr jobId));
               Txt "with data:"; Val data];;
  setActiveJobId (Some jobId);;
  setError None;;
  match data with
  | Some d =>
      if truthy d then
        setJobData d;;
        console_log [Txt "Setting job data:"; Val data];;
        try_catch
          (localStorage_setItem "lastJobData" (JSON_stringify d))
          (λ e, console_error [Txt "Error storing job data in localStorage:"; Exc e])
      else ret ()
  | None => ret ()
  end;;
  localStorage_setItem "lastJobId" jobId;;
  joinJobRoom jobId (Some NewJobOnUpdate) (Some NewJobOnComplete).

(** The dismiss button of the error banner, MinutesFrame.tsx:163. *)
Definition dismissError : M unit := setError None.

End Engine.

(** ** apiService.ts: the pull helper *)

(** [API_URL], apiService.ts:5: the build variable [VITE_API_URL] when it is
    set and not empty, the local server otherwise. *)
Definition API_URL (VITE_API_URL : option string) : string :=
  match VITE_API_URL with
  | Some url => if truthy_str VITE_API_URL then url else "http://localhost:5000"
  | None => "http://localhost:5000"
  end.

(** [getJobStatus], apiService.ts:86-99, with the way its request ends.
    The request is issued inside the [try]; the [catch] logs and throws
    again. *)
Definition getJobStatus (VITE_API_URL : option string) (jobId : string)
    (r : FetchResult) : M json :=
  try_catch
    (fetch (API_URL VITE_API_URL +:+ "/job_status/" +:+ jobId);;
     match r with
     | NetworkError => throw (TypeError "Failed to fetch")
     | Response status body =>
         if negb (response_ok status)
         then throw (Error ("Failed to get job status: " +:+ pretty status))
         else match body with
              | Some data => ret data
              | None => throw SyntaxError
              end
     end)
    (λ e, console_error [Txt "Error fetching job status:"; Exc e];; throw e).

(** ** App.tsx *)

(** [useNavigationType()]. *)
Inductive NavigationType : Type := POP | PUSH | REPLACE.

#[global] Instance NavigationType_eq_dec : EqDecision NavigationType.
Proof. solve_decision. Defined.

(** What the two effects of [App] touch: the scroll position of the window,
    the title of the document and the content of its description tag, if the
    document has one. *)
Record Page : Type := {
  scroll : Z * Z;
  document_title : string;
  meta_description : option string
}.

(** First effect, App.tsx:16-20. *)
Definition scroll_effect (action : NavigationType) (p : Page) : Page :=
  match action with
  | POP => p
  | _ => {| scroll := (0%Z, 0%Z); document_title := document_title p;
            meta_description := meta_description p |}
  end.

(** The [switch] of the second effect, App.tsx:26-43. *)
Definition page_texts (pathname : string) : string * string :=
  if String.eqb pathname "/" then
    ("Minutes Frame", "View and manage your minutes.")
  else if String.eqb pathname "/action-points" then
    ("Action Points", "Manage your action points.")
  else if String.eqb pathname "/upload-test" then
    ("Upload Test", "Test file upload functionality.")
  else ("Minutes Frame", "View and manage your minutes.").

(** Second effect, App.tsx:22-57. *)
Definition title_effect (pathname : string) (p : Page) : Page :=
  let '(title, metaDescription) := page_texts pathname in
  let p1 := if negb (String.eqb title "")
            then {| scroll := scroll p; document_title := title;
                    meta_description := meta_description p |}
            else p in
  if negb (String.eqb metaDescription "") then
    match meta_description p1 with
    | Some _ => {| scroll := scroll p1; document_title := document_title p1;
                   meta_description := Some metaDescription |}
    | None => p1
    end
  else p1.

(** [React.useEffect(f, deps)]: the effect runs after the first render, and
    after a later render when [deps] differs from its value at the render
    before; [prev] is that value, if there was a render before. *)
Definition useEffect {D} `{EqDecision D} (f : Page → Page) (prev : option D)
    (deps : D) (p : Page) : Page :=
  match prev with
  | Some d => if decide (d = deps) then p else f p
  | None => f p
  end.

(** A render of [App], App.tsx:11-57, with what the router gave the render
    before: the first effect depends on [[action, pathname]], the second on
    [[pathname]], and they run in the order of their declaration. *)
Definition App (prev : option (NavigationType * string))
    (action : NavigationType) (pathname : string) (p : Page) : Page :=
  let p1 := useEffect (scroll_effect action) prev (action, pathname) p in
  useEffect (title_effect pathname) (snd <$> prev) pathname p1.

(** The renders of a visit, one for each navigation. *)
Fixpoint App_renders (prev : option (NavigationType * string))
    (navs : list (NavigationType * string)) (p : Page) : Page :=
  match navs with
  | [] => p
  | (action, pathname) :: rest =>
      App_renders (Some (action, pathname)) rest (App prev action pathname p)
  end.

(** ** A concrete [JSON] for closed examples

    The engine above is generic in the two built-ins.  The examples at the end
    of the file run it on actual strings, with the built-ins restricted to the
    JSON texts whose numbers are integers and whose strings use no [\u]
    escape. *)
Module JSONText.

Definition quote_char (c : ascii) : string :=
  match c with
  | "034"%char => String "\" (String "034" "")
  | "\"%char => "\\"
  | "010"%char => "\n"
  | "013"%char => "\r"
  | "009"%char => "\t"
  | _ => String c ""
  end.

Fixpoint quote_body (s : string) : string :=
  match s with
  | EmptyString => ""
  | String c r => quote_char c +:+ quote_body r
  end.

Definition quote (s : string) : string :=
  String "034" (quote_body s +:+ String "034" "").

Fixpoint stringify (v : json) : string :=
  match v with
  | JNull => "null"
  | JBool true => "true"
  | JBool false => "false"
  | JNum n => pretty n
  | JStr s => quote s
  | JArr l =>
      "[" +:+
      (fix elems (l : list json) : string :=
         match l with
         | [] => ""
         | [x] => stringify x
         | x :: rest => stringify x +:+ "," +:+ elems rest
         end) l +:+ "]"
  | JObj ms =>
      "{" +:+
      (fix mems (ms : list (string * json)) : string :=
         match ms with
         | [] => ""
         | [(k, x)] => quote k +:+ ":" +:+ stringify x
         | (k, x) :: rest => quote k +:+ ":" +:+ stringify x +:+ "," +:+ mems rest
         end) ms +:+ "}"
  end.

Definition is_ws (c : ascii) : bool :=
  match c with
  | " "%char | "009"%char | "010"%char | "013"%char => true
  | _ => false
  end.

Fixpoint skip_ws (s : string) : string :=
  match s with
  | String c r => if is_ws c then skip_ws r else s
  | EmptyString => s
  end.

Fixpoint strip_prefix (p s : string) : option string :=
  match p, s with
  | EmptyString, _ => Some s
  | String a p', String b s' => if Ascii.eqb a b then strip_prefix p' s' else None
  | String _ _, EmptyString => None
  end.

Definition unescape (c : ascii) : option ascii :=
  match c with
  | "034"%char => Some "034"%char
  | "\"%char => Some "\"%char
  | "/"%char => Some "/"%char
  | "n"%char => Some "010"%char
  | "r"%char => Some "013"%char
  | "t"%char => Some "009"%char
  | "b"%char => Some "008"%char
  | "f"%char => Some "012"%char
  | _ => None
  end.

(** The characters after an opening quote, up to the closing one. *)
Fixpoint parse_chars (s : string) : option (string * string) :=
  match s with
  | EmptyString => None
  | String "034"%char r => Some ("", r)
  | String "\"%char (String c r) =>
      c' ← unescape c;
      '(str, r') ← parse_chars r;
      Some (String c' str, r')
  | String c r =>
      if (nat_of_ascii c <? 32)%nat then None
      else '(str, r') ← parse_chars r; Some (String c str, r')
  end.

Definition digit (c : ascii) : option Z :=
  let n := nat_of_ascii c in
  if (48 <=? n)%nat && (n <=? 57)%nat then Some (Z.of_nat n - 48)%Z else None.

Fixpoint parse_digits (acc : Z) (s : string) : Z * string :=
  match s with
  | String c r =>
      match digit c with
      | Some d => parse_digits (10 * acc + d)%Z r
      | None => (acc, s)
      end
  | EmptyString => (acc, s)
  end.

(** An integer literal: an optional minus sign, then [0] or a digit string
    that does not start with [0]. *)
Definition parse_nat_lit (s : string) : option (Z * string) :=
  match s with
  | String "0"%char r => Some (0%Z, r)
  | String c r => d ← digit c; Some (parse_digits d r)
  | EmptyString => None
  end.

Definition parse_int (s : string) : option (Z * string) :=
  match s with
  | String "-"%char r => '(n, r') ← parse_nat_lit r; Some ((- n)%Z, r')
  | _ => parse_nat_lit s
  end.

Fixpoint parse_value (fuel : nat) (s : string) : option (json * string) :=
  match fuel with
  | O => None
  | S fuel =>
      match skip_ws s with
      | String "034"%char r => '(str, r') ← parse_chars r; Some (JStr str, r')
      | String "["%char r =>
          match skip_ws r with
          | String "]"%char r' => Some (JArr [], r')
          | _ => '(l, r') ← parse_elements fuel r; Some (JArr l, r')
          end
      | String "{"%char r =>
          match skip_ws r with
          | String "}"%char r' => Some (JObj [], r')
          | _ => '(ms, r') ← parse_members fuel r; Some (JObj ms, r')
          end
      | s' =>
          match strip_prefix "null" s', strip_prefix "true" s', strip_prefix "false" s' with
          | Some r, _, _ => Some (JNull, r)
          | _, Some r, _ => Some (JBool true, r)
          | _, _, Some r => Some (JBool false, r)
          | _, _, _ => '(n, r) ← parse_int s'; Some (JNum n, r)
          end
      end
  end
with parse_elements (fuel : nat) (s : string) : option (list json * string) :=
  match fuel with
  | O => None
  | S fuel =>
      '(v, r) ← parse_value fuel s;
      match skip_ws r with
      | String ","%char r' => '(l, r'') ← parse_elements fuel r'; Some (v :: l, r'')
      | String "]"%char r' => Some ([v], r')
      | _ => None
      end
  end
with parse_members (fuel : nat) (s : string) : option (list (string * json) * string) :=
  match fuel with
  | O => None
  | S fuel =>
      match skip_ws s with
      | String "034"%char r =>
          '(k, r1) ← parse_chars r;
          match skip_ws r1 with
          | String ":"%char r2 =>
              '(v, r3) ← parse_value fuel r2;
              match skip_ws r3 with
              | String ","%char r4 =>
                  '(ms, r5) ← parse_members fuel r4; Some ((k, v) :: ms, r5)
              | String "}"%char r4 => Some ([(k, v)], r4)
              | _ => None
              end
          | _ => None
          end
      | _ => None
      end
  end.

Definition parse (s : string) : option json :=
  '(v, r) ← parse_value (2 * String.length s + 2) s;
  match skip_ws r with
  | EmptyString => Some v
  | _ => None
  end.

#[global] Instance builtin : JSONBuiltin :=
  {| JSON_parse := parse; JSON_stringify := stringify |}.

End JSONText.


(** ** Runs of the engine *)

(** What can happen to a mounted [MinutesFrame]: its mount effect runs, the
    upload collaborator reports a new job, the socket receives an event, the
    pull request settles, the user dismisses the banner, or a cleanup function
    returned by [joinJobRoom] is called (by React at unmount, or by the
    collaborator). *)
Inductive Action : Type :=
  | Mount
  | NewJobCreated (jobId : string) (data : option json)
  | SocketEvent (ev : string) (data : option json)
  | FetchSettled (r : FetchResult)
  | DismissError
  | CallCleanup (c : Cleanup).

Definition initial_frame : FrameState :=
  {| activeJobId := None; jobData := JNull; error := None; loading := false |}.

(** A freshly loaded page: whatever an earlier visit left in [localStorage],
    no socket yet. *)
Definition initial (st : Storage) : World :=
  {| frame := initial_frame; localStorage := st; socket := None;
     console := []; requests := [] |}.

Section Runs.
Context `{JSONBuiltin}.

(** An exception that escapes an action is an uncaught error of the page:
    the changes made before it stay. *)
Definition run_action (a : Action) (w : World) : World :=
  match a with
  | Mount => exec mountEffect w
  | NewJobCreated jobId data => exec (handleNewJobCreated jobId data) w
  | SocketEvent ev data => exec (dispatch ev data) w
  | FetchSettled r => exec (onFetchResult r) w
  | DismissError => exec dismissError w
  | CallCleanup c => exec (run_cleanup c) w
  end.

Definition run_actions (acts : list Action) (w : World) : World :=
  fold_left (λ w a, run_action a w) acts w.

Inductive reachable (st : Storage) : World → Prop :=
  | reachable_initial : reachable st (initial st)
  | reachable_step w a : reachable st w → reachable st (run_action a w).

End Runs.

(** * Properties *)

(** ** Proof tools *)

(** Reduce projections of updated worlds, and nothing inside the maps. *)
Ltac red_world :=
  cbn [frame localStorage socket console requests
       with_frame with_localStorage with_socket with_console with_requests
       items quota listeners emitted activeJobId jobData error loading
       fst snd fmap option_fmap option_map Socket_on Socket_off Socket_emit io] in *.

(** Open the computation monad and the primitive operations. *)
Ltac unfold_M :=
  cbv [exec outcome mbind M_bind bind mret M_ret ret throw try_catch finally modify
       console_log console_error setActiveJobId setJobData setError setLoading
       localStorage_getItem localStorage_setItem s_on s_off s_emit fetch] in *.

(** Split on whether a storage write fits the quota. *)
Ltac quota_cases :=
  repeat match goal with
         | |- context [if over_quota ?q ?m then _ else _] =>
             destruct (over_quota q m) eqn:?; red_world
         | H : context [if over_quota ?q ?m then _ else _] |- _ =>
             destruct (over_quota q m) eqn:?; red_world
         end.

(** Destruct the pure tests an [if] of the goal branches on. *)
Ltac branch_cases :=
  repeat match goal with
         | |- context [if strict_eq_str ?v ?s then _ else _] =>
             destruct (strict_eq_str v s) eqn:?
         | |- context [if truthy_any ?v then _ else _] =>
             destruct (truthy_any v) eqn:?
         | |- context [if truthy ?v then _ else _] =>
             destruct (truthy v) eqn:?
         end.

(** ** Vocabulary of the statements *)

(** The [job_id] an event payload or a fetched body carries. *)
Definition job_id_of (d : json) : option json :=
  match d with
  | JObj ms => member "job_id" ms
  | _ => None
  end.

Definition carries_job_id (d : json) (id : string) : Prop :=
  job_id_of d = Some (JStr id).

(** The two push events of the protocol. *)
Definition push_event (ev : string) : Prop :=
  ev = "processing_update" ∨ ev = "processing_complete".

(** The listeners that [joinJobRoom jobId onUpdate onComplete] leaves. *)
Definition room_update (jobId : string) (onUpdate : option Callback) : list Listener :=
  match onUpdate with
  | Some cb => [RoomUpdate jobId cb]
  | None => []
  end.

Definition room_complete (jobId : string) (onComplete : option Callback) : list Listener :=
  match onComplete with
  | Some cb => [RoomComplete jobId cb]
  | None => []
  end.

(** The listeners of [jobId]'s room are the only push listeners. *)
Definition bound_to (jobId : string) (w : World) : Prop :=
  (∃ cb, listeners_of "processing_update" w = [RoomUpdate jobId cb]) ∧
  (∃ cb, listeners_of "processing_complete" w = [RoomComplete jobId cb]
         ∧ (cb = EffectOnComplete ∨ cb = NewJobOnComplete)).

(** The body of the response completed with a result payload. *)
Definition completed_with_payload (d : json) : bool :=
  match d with
  | JObj ms =>
      strict_eq_str (member "status" ms) "completed" && truthy_any (member "minutes" ms)
  | _ => false
  end.

(** The body of the response reports that the job failed. *)
Definition reports_error (d : json) : bool :=
  match d with
  | JObj ms => strict_eq_str (member "status" ms) "error"
  | _ => false
  end.


(** The pull request failed: no response, a status outside 200-299, or a
    body that is not JSON. *)
Definition fetch_failed (r : FetchResult) : bool :=
  match r with
  | NetworkError => true
  | Response status body =>
      negb (response_ok status) || match body with None => true | Some _ => false end
  end.

(** The number of [console.log] lines.  Each callback of [MinutesFrame] starts
    with one, and no listener writes another, so the lines added by the
    delivery of one event count the callback invocations it caused. *)
Fixpoint count_console_log (c : list LogEntry) : nat :=
  match c with
  | [] => 0
  | console_log_entry _ :: rest => S (count_console_log rest)
  | console_error_entry _ :: rest => count_console_log rest
  end.

Definition room_listener (l : Listener) : Prop :=
  match l with
  | RoomUpdate _ _ | RoomComplete _ _ => True
  | _ => False
  end.

(** What the cache entry [lastJobData] holds, as [getLastJobData] reads it:
    nothing (no entry, or the empty string), a text that [JSON.parse]
    rejects, or a value. *)
Inductive CachedSnapshot : Type :=
  | NoSnapshot
  | CorruptSnapshot
  | Snapshot (v : json).

Definition cached_snapshot `{JSONBuiltin} (st : Storage) : CachedSnapshot :=
  match items st !! "lastJobData" with
  | None => NoSnapshot
  | Some str =>
      if String.eqb str "" then NoSnapshot
      else match JSON_parse str with
           | Some v => Snapshot v
           | None => CorruptSnapshot
           end
  end.

Definition job_status_url (id : string) : string :=
  "http://localhost:5000/job_status/" +:+ id.

(** The table a call of [joinJobRoom] starts from: the one of the socket,
    or the one [getSocket] sets up when there is no socket yet. *)
Definition base_table (w : World) : gmap string (list Listener) :=
  match socket w with
  | Some s => listeners s
  | None => <["connect_error" := [LogConnectError]]> {["connect" := [LogConnect]]}
  end.





(** ** Concrete caches and payloads for the closed examples *)
Module Scenario.
Import JSONText.

Definition minutes_J1 : json :=
  JObj [("title", JStr "Weekly sync"); ("duration", JStr "00:31:07");
        ("summary", JStr "Budget approved."); ("action_points", JArr [JStr "Send report"]);
        ("transcription", JStr "Hello everyone."); ("speakers", JArr [JStr "Ann"; JStr "Bo"])].

Definition completed_J1 : json :=
  JObj [("status", JStr "completed"); ("job_id", JStr "J1"); ("minutes", minutes_J1)].

Definition processing_J1 : json :=
  JObj [("status", JStr "processing"); ("job_id", JStr "J1")].

(** A cache that holds a job id and no snapshot. *)
Definition cache_id_only : Storage :=
  {| items := {["lastJobId" := "J1"]}; quota := None |}.

(** The same, in a storage that is exactly full: the key and the value
    take 9 + 2 characters. *)
Definition cache_full : Storage :=
  {| items := {["lastJobId" := "J1"]}; quota := Some 11%nat |}.

(** A cache whose snapshot says that the job is still being processed. *)
Definition cache_processing : Storage :=
  {| items := <["lastJobData" := stringify processing_J1]> {["lastJobId" := "J1"]};
     quota := None |}.

(** A cache with the completed snapshot of its job. *)
Definition cache_completed : Storage :=
  {| items := <["lastJobData" := stringify completed_J1]> {["lastJobId" := "J1"]};
     quota := None |}.

(** The page after its mount effect, for each of these caches. *)
Definition mounted (st : Storage) : World := run_actions [Mount] (initial st).

End Scenario.

(** ** More concrete payloads and caches *)
Module MoreScenarios.
Import JSONText Scenario.

Definition failed_J1 : json :=
  JObj [("status", JStr "error"); ("job_id", JStr "J1");
        ("error", JStr "Transcription failed")].

Definition completed_J2 : json :=
  JObj [("status", JStr "completed"); ("job_id", JStr "J2"); ("minutes", minutes_J1)].

(** A payload whose [job_id] is a number. *)
Definition numeric_id_event : json :=
  JObj [("status", JStr "completed"); ("job_id", JNum 1)].

(** A cache next to an entry of another part of the site. *)
Definition cache_with_theme : Storage :=
  {| items := <["theme" := "dark"]> {["lastJobId" := "J1"]}; quota := None |}.

(** A cache without a job id. *)
Definition cache_empty : Storage := {| items := ∅; quota := None |}.

(** A visit: the page mounts on a cached id, the request fails, the user
    dismisses the banner and uploads a second recording, whose completion
    arrives, and the connection is re-established. *)
Definition visit : list Action :=
  [Mount; FetchSettled (Response 500 None); DismissError;
   NewJobCreated "J2" None;
   SocketEvent "processing_complete" (Some completed_J2);
   SocketEvent "connect" None].

Definition a_page : Page :=
  {| scroll := (0%Z, 480%Z); document_title := "Minutes Frame";
     meta_description := Some "View and manage your minutes." |}.

End MoreScenarios.

(** ** Vocabulary of the further properties *)

(** The [error] member of a fetched body. *)
Definition job_error_of (d : json) : option json :=
  match d with
  | JObj ms => member "error" ms
  | _ => None
  end.

(** The [error] member of a body is absent, falsy or a string. *)
Definition textual_error (d : json) : bool :=
  match job_error_of d with
  | None | Some (JStr _) => true
  | Some e => negb (truthy e)
  end.

(** The title and the description are those of the path of the render
    before; [p0] is the page as the first render found it. *)
Definition titles_in_step (prev : option (NavigationType * string)) (p0 p : Page)
    : Prop :=
  match prev with
  | Some (_, pathname) =>
      document_title p = (page_texts pathname).1 ∧
      meta_description p = (λ _, (page_texts pathname).2) <$> meta_description p0
  | None => p = p0
  end.

(** ** Frame rules

    [preserves R m]: whatever the outcome of [m], the world it leaves is
    related by [R] to the one it started in. *)
Definition preserves {A} (R : relation World) (m : M A) : Prop :=
  ∀ w, R w (exec m w).

(** A state predicate as a relation: once true, true afterwards. *)
Definition stable (P : World → Prop) : relation World := λ w w', P w → P w'.

(** The engine keeps the quota and every entry of the storage, and writes no
    key but its own two. *)
Definition storage_extends : relation World := λ w w',
  quota (localStorage w') = quota (localStorage w) ∧
  ∀ k, (is_Some (items (localStorage w) !! k) → is_Some (items (localStorage w') !! k)) ∧
       (k ≠ "lastJobId" → k ≠ "lastJobData" →
        items (localStorage w') !! k = items (localStorage w) !! k).

(** Every text shown in the error banner is non-empty. *)
Definition error_not_empty (w : World) : Prop :=
  ∀ msg, error (frame w) = Some msg → msg ≠ "".

(** All the client ever sent is [rejoin_job] with a [job_id]. *)
Definition only_rejoin_sent (w : World) : Prop :=
  Forall (λ m, ∃ j, m = ("rejoin_job", JObj [("job_id", JStr j)])) (emitted_of w).

(** The two logging listeners of [getSocket] are registered once each. *)
Definition loggers_once (w : World) : Prop :=
  ∀ s, socket w = Some s →
       listeners s !! "connect" = Some [LogConnect] ∧
       listeners s !! "connect_error" = Some [LogConnectError].

(** No request is issued, and [loading] is not set. *)
Definition no_new_request : relation World := λ w w',
  requests w' = requests w ∧ (loading (frame w') = true → loading (frame w) = true).

(** What a relation has to survive to be kept by the whole engine: each
    primitive step, with the arguments the engine gives it. *)
Record engine_steps (R : relation World) : Prop := {
  step_console_log args : preserves R (console_log args);
  step_console_error args : preserves R (console_error args);
  step_setActiveJobId id : preserves R (setActiveJobId (Some id));
  step_setJobData v : preserves R (setJobData v);
  step_setError_none : preserves R (setError None);
  step_setError_some msg : msg ≠ "" → preserves R (setError (Some msg));
  step_setLoading_false : preserves R (setLoading false);
  step_setItem k v :
    k = "lastJobId" ∨ k = "lastJobData" → preserves R (localStorage_setItem k v);
  step_getSocket : preserves R getSocket;
  step_s_off ev :
    ev = "processing_update" ∨ ev = "processing_complete" ∨ ev = "processing_error" →
    preserves R (s_off ev);
  step_s_on ev l : push_event ev → room_listener l → preserves R (s_on ev l);
  step_s_emit j : preserves R (s_emit "rejoin_job" (JObj [("job_id", JStr j)]))
}.

(** The one step that only the mount effect takes. *)
Definition step_start_fetch (R : relation World) : Prop :=
  ∀ url, preserves R (setLoading true ;; fetch url).

(** The push listeners belong to no job or to one job. *)
Definition single_binding (w : World) : Prop :=
  listeners_of "processing_error" w = [] ∧
  ((listeners_of "processing_update" w = [] ∧ listeners_of "processing_complete" w = [])
   ∨ ∃ j, bound_to j w).

Section Properties.
Context `{JSONBuiltin}.

(** ** joinJobRoom *)

Lemma joinJobRoom_returns j u c w :
  outcome (joinJobRoom j u c) w = Return OffProcessingEvents.
Proof.
  unfold outcome, joinJobRoom, getSocket.
  destruct w as [f st [s|] co rq]; destruct u, c; reflexivity.
Qed.

Lemma joinJobRoom_frame j u c w :
  let w' := exec (joinJobRoom j u c) w in
  frame w' = frame w ∧ localStorage w' = localStorage w ∧
  console w' = console w ∧ requests w' = requests w.
Proof.
  unfold exec, joinJobRoom, getSocket.
  destruct w as [f st [s|] co rq]; destruct u, c; unfold_M; red_world; done.
Qed.

Lemma joinJobRoom_listeners j u c w :
  let w' := exec (joinJobRoom j u c) w in
  listeners_of "processing_update" w' = room_update j u ∧
  listeners_of "processing_complete" w' = room_complete j c ∧
  listeners_of "processing_error" w' = [].
Proof.
  unfold exec, joinJobRoom, getSocket, listeners_of, table.
  destruct w as [f st [s|] co rq]; destruct u, c; unfold_M; red_world;
    by simplify_map_eq.
Qed.

Lemma joinJobRoom_emitted j u c w :
  emitted_of (exec (joinJobRoom j u c) w)
  = emitted_of w ++ [("rejoin_job", JObj [("job_id", JStr j)])].
Proof.
  unfold exec, joinJobRoom, getSocket, emitted_of.
  destruct w as [f st [s|] co rq]; destruct u, c; reflexivity.
Qed.

(** ** Callbacks and delivery *)

Lemma run_callback_returns cb d w : outcome (run_callback cb d) w = Return ().
Proof.
  destruct cb; unfold run_callback; unfold_M; try reflexivity;
    quota_cases; reflexivity.
Qed.

(** A callback touches the job data, the snapshot entry of the cache and the
    console, and nothing else. *)
Lemma run_callback_frame cb d w :
  let w' := exec (run_callback cb d) w in
  activeJobId (frame w') = activeJobId (frame w) ∧
  error (frame w') = error (frame w) ∧
  loading (frame w') = loading (frame w) ∧
  socket w' = socket w ∧ requests w' = requests w ∧
  quota (localStorage w') = quota (localStorage w) ∧
  ∀ k, k ≠ "lastJobData" →
       items (localStorage w') !! k = items (localStorage w) !! k.
Proof.
  destruct cb; unfold run_callback; unfold_M; red_world; try done;
    quota_cases; split_and!; try done; intros k Hk; by rewrite lookup_insert_ne.
Qed.

(** A room listener lets through only the payloads that carry its own id. *)
Lemma run_listener_other_id l b d w :
  (∃ cb, l = RoomUpdate b cb ∨ l = RoomComplete b cb) →
  d ≠ JNull → strict_eq_str (job_id_of d) b = false →
  run_listener l (Some d) w = (Return (), w).
Proof.
  intros [cb [-> | ->]] Hd Hid; unfold run_listener, get_prop, job_id_of in *;
    unfold_M; destruct d; try done; by rewrite Hid.
Qed.

Lemma run_listeners_other_id ls b d w :
  Forall (λ l, ∃ cb, l = RoomUpdate b cb ∨ l = RoomComplete b cb) ls →
  d ≠ JNull → strict_eq_str (job_id_of d) b = false →
  run_listeners ls (Some d) w = (Return (), w).
Proof.
  intros Hls Hd Hid. induction Hls as [|l ls Hl _ IH]; [reflexivity|].
  cbn [run_listeners]. unfold mbind, M_bind, bind.
  by rewrite (run_listener_other_id l b d w Hl Hd Hid).
Qed.

Lemma carries_other_id d a b :
  carries_job_id d a → a ≠ b →
  d ≠ JNull ∧ strict_eq_str (job_id_of d) b = false.
Proof.
  unfold carries_job_id. intros Hd Hab. split.
  - by intros ->.
  - rewrite Hd. cbn. by apply String.eqb_neq.
Qed.

Lemma bound_to_push_listeners j w ev :
  bound_to j w → push_event ev →
  Forall (λ l, ∃ cb, l = RoomUpdate j cb ∨ l = RoomComplete j cb) (listeners_of ev w).
Proof.
  intros [[cu Hu] [cc [Hc _]]] [-> | ->]; [rewrite Hu | rewrite Hc];
    repeat constructor; eauto.
Qed.

(** Once the listeners are bound to [b], a push event for another id is
    dropped without a trace. *)
Lemma dispatch_other_id a b d ev w :
  bound_to b w → push_event ev → carries_job_id d a → a ≠ b →
  dispatch ev (Some d) w = (Return (), w).
Proof.
  intros Hb Hev Hd Hab. unfold dispatch.
  destruct (carries_other_id d a b Hd Hab) as [Hnull Hid].
  eapply run_listeners_other_id; eauto using bound_to_push_listeners.
Qed.

(** ** handleNewJobCreated *)

(** The call ends in one of two ways: the write of the id throws, and then
    [joinJobRoom] was not reached; or it returns, with the listeners bound to
    the new id and the id in the cache. *)
Lemma handleNewJobCreated_cases b data w o w' :
  handleNewJobCreated b data w = (o, w') →
  (o = Throw QuotaExceededError ∧ socket w' = socket w)
  ∨ (o = Return OffProcessingEvents ∧ bound_to b w' ∧
     listeners_of "processing_error" w' = [] ∧
     items (localStorage w') !! "lastJobId" = Some b).
Proof.
  unfold handleNewJobCreated, joinJobRoom, getSocket, bound_to, listeners_of, table.
  intros E. destruct w as [f st so co rq].
  destruct data as [d|]; [destruct (truthy d)|]; unfold_M; red_world.
  all: quota_cases.
  all: destruct so; red_world; injection E as <- <-; red_world; auto.
  all: right; split_and!; try reflexivity.
  all: repeat match goal with
              | |- ∃ _, _ => eexists
              | |- _ ∧ _ => split
              end.
  all: try (by simplify_map_eq); auto.
Qed.

(** What the call does to the component state, whatever its outcome. *)
Lemma handleNewJobCreated_frame b data w :
  frame (exec (handleNewJobCreated b data) w)
  = {| activeJobId := Some b;
       jobData := match data with
                  | Some d => if truthy d then d else jobData (frame w)
                  | None => jobData (frame w)
                  end;
       error := None;
       loading := loading (frame w) |}.
Proof.
  unfold handleNewJobCreated, joinJobRoom, getSocket.
  destruct w as [f st so co rq].
  destruct data as [d|]; [destruct (truthy d)|]; unfold_M; red_world.
  all: quota_cases.
  all: destruct so; reflexivity.
Qed.

(** After a call that returned, a push event for another id changes
    nothing. *)
Lemma stale_push_discarded a b data d ev w c w' :
  handleNewJobCreated b data w = (Return c, w') →
  a ≠ b → push_event ev → carries_job_id d a →
  dispatch ev (Some d) w' = (Return (), w').
Proof.
  intros E Hab Hev Hd.
  destruct (handleNewJobCreated_cases _ _ _ _ _ E) as [[? _] | (_ & Hb & _)];
    [discriminate|].
  by apply (dispatch_other_id a b).
Qed.

(** ** The fetch chain *)

(** The chain handles every outcome of the request itself. *)
Lemma onFetchResult_returns r w : outcome (onFetchResult r) w = Return ().
Proof.
  unfold onFetchResult, fetch_then_response, fetch_then_data, fetch_catch, get_prop.
  destruct r as [|st [d|]]; unfold_M; try reflexivity;
    destruct (response_ok st); cbn [negb]; try reflexivity.
  destruct d; try reflexivity.
  branch_cases; red_world; quota_cases; try reflexivity.
  all: destruct (member "error" members) as [e|]; [destruct (truthy e)|]; reflexivity.
Qed.

(** The chain never touches the socket or the list of requests. *)
Lemma onFetchResult_frame r w :
  let w' := exec (onFetchResult r) w in
  socket w' = socket w ∧ requests w' = requests w ∧
  activeJobId (frame w') = activeJobId (frame w) ∧
  loading (frame w') = false.
Proof.
  unfold onFetchResult, fetch_then_response, fetch_then_data, fetch_catch, get_prop.
  destruct r as [|st [d|]]; unfold_M; try done;
    destruct (response_ok st); cbn [negb]; try done.
  destruct d; try done.
  branch_cases; red_world; quota_cases; try done.
  all: destruct (member "error" members) as [e|]; [destruct (truthy e)|]; done.
Qed.

(** C8. If the pull request fails, [error] becomes a non-empty message,
    [jobData] and the rest of the session keep their values, the cache, the
    socket and the request list are untouched, and [loading] is cleared: the
    session is the old one with exactly these two cells set. *)
Theorem C8_fetch_failure_sets_error_only r w :
  fetch_failed r = true →
  let w' := exec (onFetchResult r) w in
  outcome (onFetchResult r) w = Return () ∧
  (∃ msg, error (frame w') = Some msg ∧ msg ≠ "") ∧
  jobData (frame w') = jobData (frame w) ∧
  frame w' = {| activeJobId := activeJobId (frame w);
                jobData := jobData (frame w);
                error := Some "Failed to load job data. Please try again.";
                loading := false |} ∧
  localStorage w' = localStorage w ∧ socket w' = socket w ∧
  requests w' = requests w.
Proof.
  intros Hfail.
  unfold onFetchResult, fetch_then_response, fetch_then_data, fetch_catch.
  destruct r as [|st body]; unfold_M; red_world.
  - split_and!; try reflexivity. eexists; split; [reflexivity | discriminate].
  - cbn [fetch_failed] in Hfail. destruct (response_ok st); cbn [negb orb] in *.
    + destruct body; [discriminate|]. red_world.
      split_and!; try reflexivity. eexists; split; [reflexivity | discriminate].
    + red_world.
      split_and!; try reflexivity. eexists; split; [reflexivity | discriminate].
Qed.


(** ** Push events for the bound job *)

(** C4, as the code has it.  With the listeners bound to [j], a
    [processing_complete] event that carries [j] replaces [jobData] by the
    payload and leaves [loading], [error] and [activeJobId] as they were.  The
    payload reaches the cache entry [lastJobData] when the write fits the
    quota; when it does not, the cache keeps its content and the failure is
    logged. *)
Theorem C4_complete_event_replaces_jobData j d w :
  bound_to j w → carries_job_id d j →
  let w' := exec (dispatch "processing_complete" (Some d)) w in
  let entry := <["lastJobData" := JSON_stringify d]> (items (localStorage w)) in
  outcome (dispatch "processing_complete" (Some d)) w = Return () ∧
  frame w' = {| activeJobId := activeJobId (frame w);
                jobData := d;
                error := error (frame w);
                loading := loading (frame w) |} ∧
  socket w' = socket w ∧ requests w' = requests w ∧
  if over_quota (quota (localStorage w)) entry
  then localStorage w' = localStorage w ∧
       console w' = console w ++
         [console_log_entry [Txt "Processing complete:"; Val (Some d)];
          console_error_entry [Txt "Error storing job data in localStorage:";
                               Exc QuotaExceededError]]
  else items (localStorage w') = entry.
Proof.
  intros [_ (cb & Hc & Hcb)] Hd. cbv [dispatch exec outcome]. rewrite Hc.
  unfold carries_job_id, job_id_of in Hd. destruct d as [| | | | |ms]; try done.
  cbn [run_listeners run_listener get_prop]. unfold_M. rewrite Hd.
  cbn [strict_eq_str]. rewrite String.eqb_refl.
  destruct w as [f st so co rq].
  destruct Hcb as [-> | ->]; cbn [run_callback]; unfold_M; red_world;
    quota_cases; red_world; split_and!; try reflexivity.
  all: by rewrite <- app_assoc.
Qed.

(** An accepted completion event changes one cell of the component
    state. *)
Lemma complete_event_frame j d w :
  bound_to j w → carries_job_id d j →
  frame (exec (dispatch "processing_complete" (Some d)) w)
  = {| activeJobId := activeJobId (frame w); jobData := d;
       error := error (frame w); loading := loading (frame w) |}.
Proof.
  intros [_ (cb & Hc & Hcb)] Hd. cbv [dispatch exec]. rewrite Hc.
  unfold carries_job_id, job_id_of in Hd. destruct d as [| | | | |ms]; try done.
  cbn [run_listeners run_listener get_prop]. unfold_M. rewrite Hd.
  cbn [strict_eq_str]. rewrite String.eqb_refl.
  destruct w as [f st so co rq].
  destruct Hcb as [-> | ->]; cbn [run_callback]; unfold_M; red_world;
    quota_cases; reflexivity.
Qed.

(** When the storage refuses the id, the call without a snapshot throws:
    nothing was written to [console.error], and the cache and the socket are
    as before. *)
Lemma id_write_failure_escapes b w :
  over_quota (quota (localStorage w)) (<["lastJobId" := b]> (items (localStorage w)))
  = true →
  let w' := exec (handleNewJobCreated b None) w in
  outcome (handleNewJobCreated b None) w = Throw QuotaExceededError ∧
  console w' = console w ++
    [console_log_entry [Txt "New job created:"; Val (Some (JStr b));
                        Txt "with data:"; Val None]] ∧
  localStorage w' = localStorage w ∧ socket w' = socket w ∧
  activeJobId (frame w') = Some b.
Proof.
  intros Hq. unfold handleNewJobCreated. destruct w as [f st so co rq].
  unfold_M; red_world. by rewrite Hq.
Qed.

(** Then the listeners of the previous job are still bound, and its
    completion event replaces [jobData] under the new active id. *)
Lemma stale_push_accepted_after_failed_id_write a b d w :
  bound_to a w → carries_job_id d a →
  over_quota (quota (localStorage w)) (<["lastJobId" := b]> (items (localStorage w)))
  = true →
  let w1 := exec (handleNewJobCreated b None) w in
  let w2 := exec (dispatch "processing_complete" (Some d)) w1 in
  activeJobId (frame w2) = Some b ∧ jobData (frame w2) = d.
Proof.
  intros Ha Hd Hq w1 w2.
  destruct (id_write_failure_escapes b w Hq) as (_ & _ & _ & Hso & Hact).
  fold w1 in Hso, Hact.
  assert (Hb : bound_to a w1).
  { unfold bound_to, listeners_of, table in *. by rewrite Hso. }
  unfold w2. by rewrite (complete_event_frame a d w1 Hb Hd).
Qed.

(** ** Registration on the shared socket *)

Lemma count_console_log_app c1 c2 :
  count_console_log (c1 ++ c2) = (count_console_log c1 + count_console_log c2)%nat.
Proof.
  induction c1 as [|[?|?] c1 IH]; cbn; [done | by rewrite IH | done].
Qed.

Lemma run_callback_logs_once cb d w :
  count_console_log (console (exec (run_callback cb d) w))
  = S (count_console_log (console w)).
Proof.
  destruct w as [f st so co rq].
  destruct cb; unfold run_callback; unfold_M; red_world; quota_cases;
    rewrite ?count_console_log_app; cbn; lia.
Qed.

Lemma run_listener_logs_at_most_once l d w :
  room_listener l →
  (count_console_log (console (exec (run_listener l d) w))
   ≤ S (count_console_log (console w)))%nat.
Proof.
  destruct l as [| |j cb|j cb]; try done; intros _.
  all: destruct d as [d|]; [|cbn; lia].
  all: unfold exec, run_listener, get_prop; unfold mbind, M_bind, bind.
  all: destruct d; cbn [throw ret snd fst]; try lia.
  all: destruct (strict_eq_str _ _); cbn [ret snd]; try lia.
  all: match goal with
       | |- context [run_callback ?cb ?d ?w] =>
           pose proof (run_callback_logs_once cb d w) as Hlog
       end; unfold exec in Hlog; lia.
Qed.

(** The cleanup function leaves none of the three processing events with a
    listener, whoever registered them. *)
Lemma run_cleanup_listeners c w :
  let w' := exec (run_cleanup c) w in
  listeners_of "processing_update" w' = [] ∧
  listeners_of "processing_complete" w' = [] ∧
  listeners_of "processing_error" w' = [].
Proof.
  destruct c, w as [f st [s|] co rq]; unfold run_cleanup, listeners_of, table;
    unfold_M; red_world; by simplify_map_eq.
Qed.

Lemma dispatch_unfold ev d w :
  dispatch ev d w = run_listeners (listeners_of ev w) d w.
Proof. reflexivity. Qed.

Lemma dispatch_no_listener ev d w :
  listeners_of ev w = [] → dispatch ev d w = (Return (), w).
Proof. unfold dispatch. by intros ->. Qed.

(** The whole table after [joinJobRoom], key by key. *)
Lemma joinJobRoom_table j u c w k :
  table (exec (joinJobRoom j u c) w) !! k
  = if decide (k = "processing_update") then (λ cb, [RoomUpdate j cb]) <$> u
    else if decide (k = "processing_complete") then (λ cb, [RoomComplete j cb]) <$> c
    else if decide (k = "processing_error") then None
    else base_table w !! k.
Proof.
  unfold exec, joinJobRoom, getSocket, table, base_table.
  destruct w as [f st [s|] co rq]; destruct u, c; unfold_M; red_world.
  all: repeat case_decide; subst.
  all: by simplify_map_eq.
Qed.

Lemma joinJobRoom_base_table j u c w :
  base_table (exec (joinJobRoom j u c) w) = table (exec (joinJobRoom j u c) w).
Proof.
  unfold exec, joinJobRoom, getSocket, table, base_table.
  destruct w as [f st [s|] co rq]; destruct u, c; reflexivity.
Qed.

(** A second [joinJobRoom] leaves the table that it would have left
    without the first. *)
Lemma joinJobRoom_replaces j u c j' u' c' w :
  table (exec (joinJobRoom j' u' c') (exec (joinJobRoom j u c) w))
  = table (exec (joinJobRoom j' u' c') w).
Proof.
  apply map_eq; intros k. rewrite !joinJobRoom_table.
  repeat case_decide; try reflexivity.
  rewrite joinJobRoom_base_table, joinJobRoom_table.
  by repeat (case_decide; [done|]).
Qed.

(** C5. Joining the room of the same job twice leaves the listener table of
    the shared socket as the second call alone would leave it, hence, when
    both calls pass the same callbacks, as the first call left it: one update
    listener and one completion listener (where a callback was given) and
    none for [processing_error].  The delivery of a single push event then
    starts at most one callback. *)
Theorem C5_joinJobRoom_twice_one_handler_set j u c u' c' w :
  let w1 := exec (joinJobRoom j u c) w in
  let w2 := exec (joinJobRoom j u' c') w1 in
  table w2 = table (exec (joinJobRoom j u' c') w) ∧
  table (exec (joinJobRoom j u c) w1) = table w1 ∧
  listeners_of "processing_update" w2 = room_update j u' ∧
  listeners_of "processing_complete" w2 = room_complete j c' ∧
  listeners_of "processing_error" w2 = [] ∧
  ∀ ev d, push_event ev →
    (count_console_log (console (exec (dispatch ev d) w2))
     ≤ S (count_console_log (console w2)))%nat.
Proof.
  intros w1 w2. split; [apply joinJobRoom_replaces|].
  split; [apply joinJobRoom_replaces|].
  destruct (joinJobRoom_listeners j u' c' w1) as (Hu & Hc & He).
  split_and!; try done.
  fold w2 in Hu, Hc. clearbody w2. clear w1 He.
  intros ev d [-> | ->]; unfold exec; rewrite dispatch_unfold.
  - rewrite Hu. destruct u' as [cb|]; cbn [room_update run_listeners]; [|cbn; lia].
    unfold mbind, M_bind, bind.
    pose proof (run_listener_logs_at_most_once (RoomUpdate j cb) d w2 I) as Hlog.
    unfold exec in Hlog. by destruct (run_listener _ _ _) as [[[]|e] w3].
  - rewrite Hc. destruct c' as [cb|]; cbn [room_complete run_listeners]; [|cbn; lia].
    unfold mbind, M_bind, bind.
    pose proof (run_listener_logs_at_most_once (RoomComplete j cb) d w2 I) as Hlog.
    unfold exec in Hlog. by destruct (run_listener _ _ _) as [[[]|e] w3].
Qed.

(** C9. The function returned by [joinJobRoom] removes every listener of
    the three processing events from the shared socket, whoever registered
    it.  So the function returned by a first [joinJobRoom a] removes the
    listeners that a later [joinJobRoom b] installed: after it has run, none
    of the three events has a listener, and a push event, also one for [b],
    changes nothing. *)
Theorem C9_cleanup_of_first_join_removes_second a ua ca b ub cb w :
  let w1 := exec (joinJobRoom a ua ca) w in
  let w2 := exec (joinJobRoom b ub cb) w1 in
  ∃ cleanup_a,
    outcome (joinJobRoom a ua ca) w = Return cleanup_a ∧
    (∀ w0, let w0' := exec (run_cleanup cleanup_a) w0 in
           listeners_of "processing_update" w0' = [] ∧
           listeners_of "processing_complete" w0' = [] ∧
           listeners_of "processing_error" w0' = []) ∧
    let w3 := exec (run_cleanup cleanup_a) w2 in
    listeners_of "processing_update" w2 = room_update b ub ∧
    listeners_of "processing_complete" w2 = room_complete b cb ∧
    listeners_of "processing_update" w3 = [] ∧
    listeners_of "processing_complete" w3 = [] ∧
    listeners_of "processing_error" w3 = [] ∧
    ∀ ev d, push_event ev → dispatch ev d w3 = (Return (), w3).
Proof.
  intros w1 w2. exists OffProcessingEvents.
  split; [apply joinJobRoom_returns|].
  split; [intros w0; apply run_cleanup_listeners|]. intros w3.
  destruct (joinJobRoom_listeners b ub cb w1) as (Hu & Hc & _).
  destruct (run_cleanup_listeners OffProcessingEvents w2) as (Hu3 & Hc3 & He3).
  split_and!; try done.
  intros ev d [-> | ->]; by apply dispatch_no_listener.
Qed.

(** C10, as the code has it.  [handleNewJobCreated] with a new id and no
    snapshot ([data] undefined or falsy) makes the id the active one, leaves
    [jobData] and the cache entry [lastJobData] as the previous job left
    them, and issues no request.  The id is written to the cache only where
    the storage accepts the write: the call then returns and the cache
    holds the new id next to that older snapshot.  Where the storage refuses
    the write the call throws and the cache is as it was. *)
Theorem C10_new_job_without_snapshot_keeps_old_snapshot b data w :
  truthy_any data = false →
  let w' := exec (handleNewJobCreated b data) w in
  jobData (frame w') = jobData (frame w) ∧
  items (localStorage w') !! "lastJobData" = items (localStorage w) !! "lastJobData" ∧
  requests w' = requests w ∧
  activeJobId (frame w') = Some b ∧
  if over_quota (quota (localStorage w)) (<["lastJobId" := b]> (items (localStorage w)))
  then outcome (handleNewJobCreated b data) w = Throw QuotaExceededError ∧
       localStorage w' = localStorage w
  else outcome (handleNewJobCreated b data) w = Return OffProcessingEvents ∧
       items (localStorage w') !! "lastJobId" = Some b.
Proof.
  intros Hdata.
  assert (Hbody : handleNewJobCreated b data
                  = (console_log [Txt "New job created:"; Val (Some (JStr b));
                                  Txt "with data:"; Val data];;
                     setActiveJobId (Some b);; setError None;; ret ();;
                     localStorage_setItem "lastJobId" b;;
                     joinJobRoom b (Some NewJobOnUpdate) (Some NewJobOnComplete))).
  { unfold handleNewJobCreated. destruct data as [d|]; [|done].
    cbn [truthy_any] in Hdata. by rewrite Hdata. }
  rewrite Hbody. unfold joinJobRoom, getSocket.
  destruct w as [f st so co rq]. unfold_M; red_world.
  quota_cases; destruct so; red_world; split_and!; try done.
  all: try (by rewrite lookup_insert_ne).
  all: by rewrite lookup_insert_eq.
Qed.

(** ** The mount effect *)

(** C7, as the code has it.  With a non-empty job id in the cache: a
    snapshot that parses to a truthy value is accepted as [jobData] whatever
    its status, and no request is issued; without a snapshot (or with a
    falsy one) [loading] is set and the job is fetched; in both cases the
    listeners are bound to the id and the room is joined over the socket.  A
    snapshot that does not parse makes the whole cache count as empty:
    nothing is tracked, fetched or bound. *)
Theorem C7_resume_accepts_any_snapshot id w :
  items (localStorage w) !! "lastJobId" = Some id → id ≠ "" →
  let w' := exec mountEffect w in
  let joined :=
    bound_to id w' ∧
    emitted_of w' = emitted_of w ++ [("rejoin_job", JObj [("job_id", JStr id)])] in
  let fetched :=
    frame w' = {| activeJobId := Some id; jobData := jobData (frame w);
                  error := error (frame w); loading := true |} ∧
    requests w' = requests w ++ [job_status_url id] ∧ joined in
  match cached_snapshot (localStorage w) with
  | Snapshot v =>
      if truthy v then
        frame w' = {| activeJobId := Some id; jobData := v;
                      error := error (frame w); loading := loading (frame w) |} ∧
        requests w' = requests w ∧ joined
      else fetched
  | NoSnapshot => fetched
  | CorruptSnapshot =>
      frame w' = frame w ∧ requests w' = requests w ∧ socket w' = socket w
  end.
Proof.
  intros Hid Hne. apply String.eqb_neq in Hne.
  cbv zeta. unfold cached_snapshot, job_status_url.
  unfold mountEffect, getLastJobData, JSON_parse_M, joinJobRoom, getSocket,
    bound_to, listeners_of, table, emitted_of.
  destruct w as [f st so co rq]. unfold_M; red_world. rewrite Hid.
  destruct (items st !! "lastJobData") as [str|]; cbn [truthy_str].
  1: destruct (String.eqb str ""); cbn [negb].
  2: destruct (JSON_parse str) as [v|]; [destruct (truthy v) eqn:Hv|].
  all: cbn [truthy truthy_str]; rewrite ?Hne, ?Hv; cbn [negb]; red_world.
  all: destruct so; red_world; split_and?; try reflexivity.
  all: repeat match goal with
              | |- ∃ _, _ => eexists
              | |- _ ∧ _ => split
              end.
  all: try (by simplify_map_eq); auto.
Qed.

(** ** What runs on the socket besides the room listeners *)








Lemma run_listener_socket l d w : socket (exec (run_listener l d) w) = socket w.
Proof.
  destruct l as [| |j cb|j cb]; try reflexivity.
  all: destruct d as [d|]; [|reflexivity].
  all: unfold exec, run_listener, get_prop; unfold mbind, M_bind, bind.
  all: destruct d; cbn [throw ret snd fst]; try reflexivity.
  all: destruct (strict_eq_str _ _); cbn [ret snd]; try reflexivity.
  all: match goal with
       | |- context [run_callback ?cb ?d ?w] =>
           by destruct (run_callback_frame cb d w) as (_ & _ & _ & ? & _)
       end.
Qed.

Lemma run_listeners_socket ls d w : socket (exec (run_listeners ls d) w) = socket w.
Proof.
  revert w. induction ls as [|l ls IH]; intros w; [reflexivity|].
  unfold exec in *. cbn [run_listeners]. unfold mbind, M_bind, bind.
  pose proof (run_listener_socket l d w) as Hl. unfold exec in Hl.
  destruct (run_listener l d w) as [[[]|e] w1]; cbn [snd] in *; [|done].
  by rewrite IH.
Qed.

Lemma dispatch_socket ev d w : socket (exec (dispatch ev d) w) = socket w.
Proof. unfold exec. rewrite dispatch_unfold. apply run_listeners_socket. Qed.

(** [handleNewJobCreated] and the mount effect reach the socket only through
    [joinJobRoom], if at all. *)
Lemma handleNewJobCreated_socket b data w :
  ∃ w1, socket w1 = socket w ∧
        (exec (handleNewJobCreated b data) w = w1 ∨
         exec (handleNewJobCreated b data) w
         = exec (joinJobRoom b (Some NewJobOnUpdate) (Some NewJobOnComplete)) w1).
Proof.
  unfold handleNewJobCreated. destruct w as [f st so co rq].
  destruct data as [d|]; [destruct (truthy d)|]; unfold_M; red_world.
  all: quota_cases.
  all: match goal with
       | |- context [joinJobRoom _ _ _ ?w1] =>
           exists w1; split; [reflexivity | right; reflexivity]
       | |- _ => eexists; split; [|left; reflexivity]; reflexivity
       end.
Qed.

Lemma mountEffect_socket w :
  ∃ w1, socket w1 = socket w ∧
        (exec mountEffect w = w1 ∨
         ∃ id, exec mountEffect w
               = exec (joinJobRoom id (Some EffectOnUpdate) (Some EffectOnComplete)) w1).
Proof.
  unfold mountEffect, getLastJobData, JSON_parse_M. destruct w as [f st so co rq].
  unfold_M; red_world.
  destruct (items st !! "lastJobId") as [id|];
    destruct (items st !! "lastJobData") as [str|]; cbn [truthy_str truthy negb].
  all: repeat match goal with
              | |- context [if negb (String.eqb ?a ?b) then _ else _] =>
                  destruct (String.eqb a b); cbn [negb truthy truthy_str]
              | |- context [match JSON_parse ?s with _ => _ end] =>
                  destruct (JSON_parse s); cbn [negb truthy truthy_str]
              | |- context [if truthy ?v then _ else _] =>
                  destruct (truthy v); cbn [negb truthy truthy_str]
              end.
  all: red_world.
  all: try (eexists; split; [|left; reflexivity]; reflexivity).
  all: match goal with
       | |- context [joinJobRoom ?j ?u ?c ?w1] =>
           exists w1; split; [reflexivity|]; right; exists j; unfold exec;
           pose proof (joinJobRoom_returns j u c w1) as Hr; unfold outcome in Hr;
           destruct (joinJobRoom j u c w1) as [[?|?] ?]; [reflexivity | discriminate]
       end.
Qed.





End Properties.

(** * Further properties of the engine and of the code around it *)

Section FetchResults.
Context `{JSONBuiltin}.

(** The two terminal statuses exclude each other. *)
Lemma reports_error_not_completed d :
  reports_error d = true → completed_with_payload d = false.
Proof.
  destruct d as [| | | | |ms]; try done. cbn.
  destruct (member "status" ms) as [[| | |s| |]|]; try done. cbn.
  intros Hs. apply String.eqb_eq in Hs as ->. reflexivity.
Qed.

(** What a completed body does to the component state. *)
Lemma fetch_completed_frame st d w :
  response_ok st = true → completed_with_payload d = true →
  frame (exec (onFetchResult (Response st (Some d))) w)
  = {| activeJobId := activeJobId (frame w); jobData := d;
       error := error (frame w); loading := false |}.
Proof.
  intros Hok Hc.
  unfold onFetchResult, fetch_then_response, fetch_then_data, fetch_catch, get_prop.
  unfold_M. rewrite Hok. cbn [negb].
  destruct d as [| | | | |ms]; try done. cbn [completed_with_payload] in Hc.
  apply andb_true_iff in Hc as [-> ->]. destruct w as [f s so co rq].
  red_world. quota_cases; reflexivity.
Qed.

(** X1. A completed body with a result payload is accepted: [jobData] becomes
    the body, [loading] is cleared, and the body goes to the cache entry
    [lastJobData] unless the storage refuses it, which is logged. *)
Theorem fetch_completed_result_accepted st d w :
  response_ok st = true → completed_with_payload d = true →
  let w' := exec (onFetchResult (Response st (Some d))) w in
  let entry := <["lastJobData" := JSON_stringify d]> (items (localStorage w)) in
  outcome (onFetchResult (Response st (Some d))) w = Return () ∧
  frame w' = {| activeJobId := activeJobId (frame w); jobData := d;
                error := error (frame w); loading := false |} ∧
  socket w' = socket w ∧ requests w' = requests w ∧
  quota (localStorage w') = quota (localStorage w) ∧
  if over_quota (quota (localStorage w)) entry
  then items (localStorage w') = items (localStorage w) ∧
       console w' = console w ++
         [console_log_entry [Txt "Fetched job data:"; Val (Some d)];
          console_error_entry [Txt "Error storing job data in localStorage:";
                               Exc QuotaExceededError]]
  else items (localStorage w') = entry.
Proof.
  intros Hok Hc.
  unfold onFetchResult, fetch_then_response, fetch_then_data, fetch_catch, get_prop.
  unfold_M. rewrite Hok. cbn [negb].
  destruct d as [| | | | |ms]; try done. cbn [completed_with_payload] in Hc.
  apply andb_true_iff in Hc as [-> ->]. destruct w as [f s so co rq].
  red_world. quota_cases; split_and!; try reflexivity.
  by rewrite <- app_assoc.
Qed.

(** X2. A body with the status [error] only sets the banner text.  Where the
    body's [error] member is a string, missing or falsy, the text starts
    with [Error: ] and continues with that string, or with [Unknown error]
    when the member is missing or falsy (the empty string included).  The
    job data and the cache are not touched. *)
Theorem fetch_error_status_sets_banner st d w :
  response_ok st = true → reports_error d = true → textual_error d = true →
  let w' := exec (onFetchResult (Response st (Some d))) w in
  let detail := match job_error_of d with
                | Some (JStr s) => if String.eqb s "" then "Unknown error" else s
                | _ => "Unknown error"
                end in
  outcome (onFetchResult (Response st (Some d))) w = Return () ∧
  frame w' = {| activeJobId := activeJobId (frame w); jobData := jobData (frame w);
                error := Some ("Error: " +:+ detail); loading := false |} ∧
  "Error: " +:+ detail ≠ "" ∧
  localStorage w' = localStorage w ∧ socket w' = socket w ∧
  requests w' = requests w.
Proof.
  intros Hok He Ht. pose proof (reports_error_not_completed d He) as Hc.
  unfold onFetchResult, fetch_then_response, fetch_then_data, fetch_catch, get_prop.
  unfold_M. rewrite Hok. cbn [negb].
  destruct d as [| | | | |ms]; try done.
  unfold textual_error in Ht.
  cbn [completed_with_payload reports_error job_error_of] in *.
  assert (Hd : match member "error" ms with
               | Some e => if truthy e then to_String e else "Unknown error"
               | None => "Unknown error"
               end
               = match member "error" ms with
                 | Some (JStr s) => if String.eqb s "" then "Unknown error" else s
                 | _ => "Unknown error"
                 end).
  { destruct (member "error" ms) as [[|b|n|s|l|o]|]; cbn [truthy to_String negb] in *;
      try done.
    - by destruct b.
    - by apply negb_true_iff in Ht as ->.
    - by destruct (String.eqb s ""). }
  rewrite <- Hd.
  destruct (strict_eq_str (member "status" ms) "completed"); cbn [andb] in Hc.
  - rewrite Hc, He. destruct w as [f s so co rq]. red_world.
    destruct (member "error" ms) as [e|]; [destruct (truthy e)|]; done.
  - rewrite He. destruct w as [f s so co rq]. red_world.
    destruct (member "error" ms) as [e|]; [destruct (truthy e)|]; done.
Qed.

End FetchResults.
Section FrameRules.
Context (R : relation World) `{!PreOrder R}.

Lemma preserves_pure {A} (m : M A) : (∀ w, exec m w = w) → preserves R m.
Proof. intros Hm w. rewrite Hm. reflexivity. Qed.

Lemma preserves_ret {A} (a : A) : preserves R (mret a).
Proof. by apply preserves_pure. Qed.

Lemma preserves_throw {A} e : preserves R (@throw A e).
Proof. by apply preserves_pure. Qed.

Lemma preserves_modify f : (∀ w, R w (f w)) → preserves R (modify f).
Proof. intros Hf w. apply Hf. Qed.

Lemma preserves_bind {A B} (m : M A) (k : A → M B) :
  preserves R m → (∀ a, preserves R (k a)) → preserves R (m ≫= k).
Proof.
  intros Hm Hk w. specialize (Hm w). unfold exec, mbind, M_bind, bind in *.
  destruct (m w) as [[a|e] w1]; cbn [snd] in *; [|exact Hm].
  etrans; [exact Hm | apply Hk].
Qed.

Lemma preserves_try_catch {A} (m : M A) h :
  preserves R m → (∀ e, preserves R (h e)) → preserves R (try_catch m h).
Proof.
  intros Hm Hh w. specialize (Hm w). unfold exec, try_catch in *.
  destruct (m w) as [[a|e] w1]; cbn [snd] in *; [exact Hm|].
  etrans; [exact Hm | apply Hh].
Qed.

Lemma preserves_finally {A} (m : M A) f :
  preserves R m → preserves R f → preserves R (finally m f).
Proof.
  intros Hm Hf w. specialize (Hm w). unfold exec, finally in *.
  destruct (m w) as [o w1]; cbn [snd] in *. specialize (Hf w1). unfold exec in Hf.
  destruct (f w1) as [[[]|e] w2]; cbn [snd] in *; (etrans; [exact Hm | exact Hf]).
Qed.

Lemma preserves_get_prop d k : preserves R (get_prop d k).
Proof. apply preserves_pure. by destruct d. Qed.

Lemma preserves_getItem k : preserves R (localStorage_getItem k).
Proof. by apply preserves_pure. Qed.

Lemma preserves_JSON_parse `{JSONBuiltin} s : preserves R (JSON_parse_M s).
Proof. apply preserves_pure. intros w. unfold JSON_parse_M. by destruct (JSON_parse s). Qed.

End FrameRules.

#[global] Instance stable_preorder P : PreOrder (stable P).
Proof.
  split; [intros w Hw; exact Hw | intros w1 w2 w3 H12 H23 Hw; by apply H23, H12].
Qed.

#[global] Instance storage_extends_preorder : PreOrder storage_extends.
Proof.
  split.
  - intros w. split; [reflexivity | intros k; split; auto].
  - intros w1 w2 w3 [Hq12 H12] [Hq23 H23]. split; [congruence|].
    intros k. destruct (H12 k) as [Hs12 He12], (H23 k) as [Hs23 He23].
    split; [auto|]. intros ??. by rewrite He23, He12.
Qed.

#[global] Instance no_new_request_preorder : PreOrder no_new_request.
Proof.
  split.
  - intros w. split; [reflexivity | auto].
  - intros w1 w2 w3 [Hr12 Hl12] [Hr23 Hl23]. split; [congruence | auto].
Qed.
(** Split a computation of the engine into its steps. *)
Ltac preserve_step :=
  cbv beta;
  lazymatch goal with
  | |- preserves _ (mbind _ _) => apply preserves_bind; [exact _ | | intros ?]
  | |- preserves _ (try_catch _ _) => apply preserves_try_catch; [exact _ | | intros ?]
  | |- preserves _ (finally _ _) => apply preserves_finally; [exact _ | | ]
  | |- preserves _ (mret _) => apply preserves_ret; exact _
  | |- preserves _ (ret _) => apply preserves_ret; exact _
  | |- preserves _ (throw _) => apply preserves_throw; exact _
  | |- preserves _ (get_prop _ _) => apply preserves_get_prop; exact _
  | |- preserves _ (localStorage_getItem _) => apply preserves_getItem; exact _
  | |- preserves _ (JSON_parse_M _) => apply preserves_JSON_parse; exact _
  | |- preserves _ (match ?x with _ => _ end) => destruct x
  end.

Ltac preserve_split := repeat preserve_step.

Section EngineKeeps.
Context `{JSONBuiltin} (R : relation World) `{!PreOrder R}.
Hypothesis steps : engine_steps R.

Ltac use_steps :=
  first [ apply (step_console_log R steps) | apply (step_console_error R steps)
        | apply (step_setActiveJobId R steps) | apply (step_setJobData R steps)
        | apply (step_setError_none R steps)
        | apply (step_setError_some R steps); discriminate
        | apply (step_setLoading_false R steps)
        | apply (step_setItem R steps); solve [auto]
        | apply (step_getSocket R steps)
        | apply (step_s_off R steps); solve [auto]
        | apply (step_s_on R steps); [unfold push_event; solve [auto] | exact I]
        | apply (step_s_emit R steps) ].

Lemma joinJobRoom_keeps j u c : preserves R (joinJobRoom j u c).
Proof. unfold joinJobRoom. preserve_split; use_steps. Qed.

Lemma run_cleanup_keeps c : preserves R (run_cleanup c).
Proof. unfold run_cleanup. preserve_split; use_steps. Qed.

Lemma run_callback_keeps cb d : preserves R (run_callback cb d).
Proof. unfold run_callback. preserve_split; use_steps. Qed.

Lemma run_listener_keeps l d : preserves R (run_listener l d).
Proof.
  unfold run_listener. preserve_split;
    first [apply run_callback_keeps | use_steps].
Qed.

Lemma run_listeners_keeps ls d : preserves R (run_listeners ls d).
Proof.
  induction ls as [|l ls IH]; cbn [run_listeners]; [apply preserves_ret; exact _|].
  apply preserves_bind; [exact _ | apply run_listener_keeps | intros _; exact IH].
Qed.

Lemma dispatch_keeps ev d : preserves R (dispatch ev d).
Proof. intros w. apply (run_listeners_keeps (listeners_of ev w) d w). Qed.

Lemma onFetchResult_keeps r : preserves R (onFetchResult r).
Proof.
  unfold onFetchResult, fetch_then_response, fetch_then_data, fetch_catch.
  preserve_split; use_steps.
Qed.

Lemma getLastJobData_keeps : preserves R getLastJobData.
Proof. unfold getLastJobData. preserve_split; use_steps. Qed.

Lemma handleNewJobCreated_keeps b data : preserves R (handleNewJobCreated b data).
Proof.
  unfold handleNewJobCreated. preserve_split;
    first [apply joinJobRoom_keeps | use_steps].
Qed.

Lemma mountEffect_keeps : step_start_fetch R → preserves R mountEffect.
Proof.
  intros Hfetch. unfold mountEffect.
  repeat first
    [ apply Hfetch | apply getLastJobData_keeps | apply joinJobRoom_keeps
    | preserve_step | use_steps ].
Qed.

End EngineKeeps.
(** Bring a primitive step to the worlds before and after it. *)
Ltac open_step :=
  intros;
  lazymatch goal with
  | |- preserves _ (localStorage_setItem _ _) =>
      intros [f st so co rq]; unfold exec, localStorage_setItem;
      cbn [localStorage]; destruct (over_quota _ _); cbn [snd]
  | |- preserves _ getSocket =>
      intros [f st [s|] co rq]; unfold exec, getSocket; unfold_M; red_world
  | |- preserves _ _ =>
      intros [f st [s|] co rq]; unfold_M; red_world
  end.

Lemma storage_extends_steps : engine_steps storage_extends.
Proof.
  split; open_step; unfold storage_extends; red_world;
    try (split; [reflexivity | intros k'; split; auto]).
  - intros Hs. destruct (decide (k = k')) as [->|];
      [by rewrite lookup_insert_eq | by rewrite lookup_insert_ne].
  - intros Hid Hdata. rewrite lookup_insert_ne; [done|].
    by destruct H as [-> | ->].
Qed.

Lemma storage_extends_start_fetch : step_start_fetch storage_extends.
Proof. intros url [f st so co rq]. unfold_M; red_world. by split. Qed.

Lemma error_not_empty_steps : engine_steps (stable error_not_empty).
Proof.
  split; open_step; unfold stable, error_not_empty; red_world; try done.
  all: intros _ msg' Hm; congruence.
Qed.

Lemma error_not_empty_start_fetch : step_start_fetch (stable error_not_empty).
Proof. intros url [f st so co rq]. unfold_M. by unfold stable, error_not_empty. Qed.

Lemma only_rejoin_sent_steps : engine_steps (stable only_rejoin_sent).
Proof.
  split; open_step; unfold stable, only_rejoin_sent, emitted_of; red_world;
    try done.
  intros Hs. apply Forall_app. split; [done|]. repeat constructor. by exists j.
Qed.

Lemma only_rejoin_sent_start_fetch : step_start_fetch (stable only_rejoin_sent).
Proof. intros url [f st so co rq]. unfold_M. by unfold stable, only_rejoin_sent, emitted_of. Qed.

Lemma loggers_once_steps : engine_steps (stable loggers_once).
Proof.
  split; open_step; unfold stable, loggers_once; red_world; try done.
  - intros _ s' [= <-]. cbn [listeners Socket_on io]. split.
    + rewrite lookup_insert_ne by done. by rewrite lookup_insert_eq.
    + by rewrite lookup_insert_eq.
  - intros Hs s' [= <-]. destruct (Hs s eq_refl) as [Hc He].
    cbn [listeners Socket_off].
    destruct H as [-> | [-> | ->]]; by rewrite !lookup_delete_ne.
  - intros Hs s' [= <-]. destruct (Hs s eq_refl) as [Hc He].
    cbn [listeners Socket_on].
    destruct H as [-> | ->]; by rewrite !lookup_insert_ne.
  - intros Hs s' [= <-]. exact (Hs s eq_refl).
Qed.

Lemma loggers_once_start_fetch : step_start_fetch (stable loggers_once).
Proof. intros url [f st so co rq]. unfold_M. by unfold stable, loggers_once. Qed.

Lemma no_new_request_steps : engine_steps no_new_request.
Proof. split; open_step; unfold no_new_request; red_world; done. Qed.
Section Invariants.
Context `{JSONBuiltin}.

(** A relation that survives every step of the engine survives every
    action. *)
Lemma run_action_keeps (R : relation World) `{!PreOrder R} a w :
  engine_steps R → (a = Mount → step_start_fetch R) → R w (run_action a w).
Proof.
  intros Hsteps Hfetch. destruct a; cbn [run_action].
  - by apply mountEffect_keeps; [| |apply Hfetch].
  - by apply handleNewJobCreated_keeps.
  - by apply dispatch_keeps.
  - by apply onFetchResult_keeps.
  - apply (step_setError_none R Hsteps).
  - by apply run_cleanup_keeps.
Qed.

Lemma reachable_keeps (R : relation World) `{!PreOrder R} st w :
  engine_steps R → step_start_fetch R → reachable st w → R (initial st) w.
Proof.
  intros Hsteps Hfetch. induction 1 as [|w a _ IH]; [reflexivity|].
  etrans; [exact IH|]. by apply run_action_keeps.
Qed.

(** X3. Whatever happens to the page, the storage keeps its quota and all its
    entries, and the entries under other keys than [lastJobId] and
    [lastJobData] keep their values: the engine never removes an entry and
    never writes a key that is not its own. *)
Theorem engine_writes_only_its_two_keys st w :
  reachable st w →
  quota (localStorage w) = quota st ∧
  ∀ k, (is_Some (items st !! k) → is_Some (items (localStorage w) !! k)) ∧
       (k ≠ "lastJobId" → k ≠ "lastJobData" →
        items (localStorage w) !! k = items st !! k).
Proof.
  intros Hw.
  exact (reachable_keeps storage_extends st w storage_extends_steps
           storage_extends_start_fetch Hw).
Qed.

(** X4. The error banner never shows an empty text: [error] is [null] or a
    non-empty string in every state a run can reach, so [error && ...] in the
    view is the same test as [error !== null]. *)
Theorem error_is_null_or_non_empty st w msg :
  reachable st w → error (frame w) = Some msg → msg ≠ "".
Proof.
  intros Hw.
  apply (reachable_keeps (stable error_not_empty) st w error_not_empty_steps
           error_not_empty_start_fetch Hw).
  by intros msg'.
Qed.

(** X5. Everything the client ever sends over the socket is a [rejoin_job]
    message with a string [job_id]. *)
Theorem client_sends_only_rejoin_job st w m :
  reachable st w → m ∈ emitted_of w →
  ∃ j, m = ("rejoin_job", JObj [("job_id", JStr j)]).
Proof.
  intros Hw Hm.
  assert (Hall : only_rejoin_sent w).
  { apply (reachable_keeps (stable only_rejoin_sent) st w only_rejoin_sent_steps
             only_rejoin_sent_start_fetch Hw).
    constructor. }
  unfold only_rejoin_sent in Hall. rewrite Forall_forall in Hall. by apply Hall.
Qed.

Lemma reachable_loggers_once st w : reachable st w → loggers_once w.
Proof.
  intros Hw.
  apply (reachable_keeps (stable loggers_once) st w loggers_once_steps
           loggers_once_start_fetch Hw).
  by intros s.
Qed.

(** X6. However often [getSocket] and [joinJobRoom] were called, the socket has
    one [connect] listener: each (re)connection writes exactly one line to
    the console and changes nothing else. *)
Theorem connect_logs_exactly_once st w d :
  reachable st w → socket w ≠ None →
  dispatch "connect" d w
  = (Return (), with_console (λ c, c ++ [console_log_entry [Txt "Socket connected:"]]) w).
Proof.
  intros Hw Hs. destruct (socket w) as [s|] eqn:Es; [|done].
  destruct (reachable_loggers_once st w Hw s Es) as [Hc _].
  rewrite dispatch_unfold. unfold listeners_of, table. rewrite Es, Hc. reflexivity.
Qed.

(** X7. Only the mount effect issues a pull request or sets [loading]: no other
    action adds a request, and none turns [loading] on. *)
Theorem only_mount_fetches a w :
  a ≠ Mount →
  requests (run_action a w) = requests w ∧
  (loading (frame (run_action a w)) = true → loading (frame w) = true).
Proof.
  intros Ha. by apply (run_action_keeps no_new_request a w no_new_request_steps).
Qed.

End Invariants.
Section Binding.
Context `{JSONBuiltin}.

Lemma single_binding_same w w' : socket w' = socket w → single_binding w → single_binding w'.
Proof.
  unfold single_binding, bound_to, listeners_of, table. by intros ->.
Qed.

Lemma joinJobRoom_single_binding j cu cc w :
  (cc = EffectOnComplete ∨ cc = NewJobOnComplete) →
  single_binding (exec (joinJobRoom j (Some cu) (Some cc)) w).
Proof.
  intros Hcc.
  destruct (joinJobRoom_listeners j (Some cu) (Some cc) w) as (Hu & Hc & He).
  split; [done|]. right. exists j. split; [by exists cu | by exists cc].
Qed.

Lemma reachable_single_binding st w : reachable st w → single_binding w.
Proof.
  induction 1 as [|w a _ IH].
  - split; [done | by left].
  - destruct a as [|b data|ev d|r| |c]; cbn [run_action].
    + destruct (mountEffect_socket w) as (w1 & Hw1 & [-> | [id ->]]).
      * by apply (single_binding_same w).
      * apply joinJobRoom_single_binding. by left.
    + destruct (handleNewJobCreated_socket b data w) as (w1 & Hw1 & [-> | ->]).
      * by apply (single_binding_same w).
      * apply joinJobRoom_single_binding. by right.
    + apply (single_binding_same w); [apply dispatch_socket | done].
    + apply (single_binding_same w); [|done].
      by destruct (onFetchResult_frame r w) as [? _].
    + by apply (single_binding_same w).
    + destruct (run_cleanup_listeners c w) as (Hu & Hc & He).
      split; [done | by left].
Qed.

(** X8. At every moment the push listeners on the shared socket are those of at
    most one job: either none is registered, or exactly one update listener
    and one completion listener, both filtering on the same job id.  No
    listener is ever registered for [processing_error]. *)
Theorem one_job_bound_at_a_time st w :
  reachable st w →
  listeners_of "processing_error" w = [] ∧
  ((listeners_of "processing_update" w = [] ∧ listeners_of "processing_complete" w = [])
   ∨ ∃ j cu cc, listeners_of "processing_update" w = [RoomUpdate j cu] ∧
                listeners_of "processing_complete" w = [RoomComplete j cc]).
Proof.
  intros Hw.
  destruct (reachable_single_binding st w Hw)
    as [He [Hnone | [j [[cu Hu] (cc & Hc & _)]]]]; split; try done.
  - by left.
  - right. by exists j, cu, cc.
Qed.


Lemma run_listener_active l d w :
  activeJobId (frame (exec (run_listener l d) w)) = activeJobId (frame w).
Proof.
  destruct l as [| |j cb|j cb]; try reflexivity.
  all: destruct d as [d|]; [|reflexivity].
  all: unfold exec, run_listener, get_prop; unfold mbind, M_bind, bind.
  all: destruct d; cbn [throw ret snd fst]; try reflexivity.
  all: destruct (strict_eq_str _ _); cbn [ret snd]; try reflexivity.
  all: match goal with
       | |- context [run_callback ?cb ?d ?w] =>
           by destruct (run_callback_frame cb d w) as (? & _)
       end.
Qed.

Lemma dispatch_active ev d w :
  activeJobId (frame (exec (dispatch ev d) w)) = activeJobId (frame w).
Proof.
  unfold exec. rewrite dispatch_unfold. generalize (listeners_of ev w) as ls.
  intros ls. revert w. induction ls as [|l ls IH]; intros w; [reflexivity|].
  cbn [run_listeners]. unfold mbind, M_bind, bind.
  pose proof (run_listener_active l d w) as Hl. unfold exec in Hl.
  destruct (run_listener l d w) as [[[]|e] w1]; cbn [snd] in *; [|done].
  by rewrite IH.
Qed.

(** The mount effect either leaves the session and the socket alone, or
    tracks the cached id and joins its room. *)
Lemma mountEffect_tracks w :
  ∃ w1, socket w1 = socket w ∧
        ((exec mountEffect w = w1 ∧ frame w1 = frame w ∧ requests w1 = requests w) ∨
         ∃ id, activeJobId (frame w1) = Some id ∧
               items (localStorage w) !! "lastJobId" = Some id ∧ id ≠ "" ∧
               exec mountEffect w
               = exec (joinJobRoom id (Some EffectOnUpdate) (Some EffectOnComplete)) w1).
Proof.
  unfold mountEffect, getLastJobData, JSON_parse_M. destruct w as [f st so co rq].
  unfold_M; red_world.
  destruct (items st !! "lastJobId") as [id|];
    destruct (items st !! "lastJobData") as [str|]; cbn [truthy_str truthy negb].
  all: repeat match goal with
              | |- context [if negb (String.eqb ?a ?b) then _ else _] =>
                  destruct (String.eqb a b) eqn:?; cbn [negb truthy truthy_str]
              | |- context [match JSON_parse ?s with _ => _ end] =>
                  destruct (JSON_parse s); cbn [negb truthy truthy_str]
              | |- context [if truthy ?v then _ else _] =>
                  destruct (truthy v); cbn [negb truthy truthy_str]
              end.
  all: red_world.
  all: try (eexists; split; [|left; split_and!; reflexivity]; reflexivity).
  all: match goal with
       | |- context [joinJobRoom ?j ?u ?c ?w1] =>
           exists w1; split; [reflexivity|]; right; exists j;
           split_and!; [reflexivity | reflexivity | by apply String.eqb_neq |];
           unfold exec;
           pose proof (joinJobRoom_returns j u c w1) as Hr; unfold outcome in Hr;
           destruct (joinJobRoom j u c w1) as [[?|?] ?]; [reflexivity | discriminate]
       end.
Qed.

Lemma handleNewJobCreated_unlimited b data w :
  quota (localStorage w) = None →
  outcome (handleNewJobCreated b data) w = Return OffProcessingEvents.
Proof.
  intros Hq. unfold handleNewJobCreated, joinJobRoom, getSocket.
  destruct w as [f [its q] so co rq]. cbn in Hq. subst q.
  destruct data as [d|]; [destruct (truthy d)|]; unfold_M; red_world;
    cbn [over_quota]; destruct so; reflexivity.
Qed.

Lemma reachable_quota st w : reachable st w → quota (localStorage w) = quota st.
Proof.
  intros Hw.
  by destruct (reachable_keeps storage_extends st w storage_extends_steps
                 storage_extends_start_fetch Hw) as [? _].
Qed.



End Binding.
Section MountAndResume.
Context `{JSONBuiltin}.

(** The whole effect of mounting, by what the cache holds. *)
Lemma mountEffect_summary w :
  let w' := exec mountEffect w in
  let o := outcome mountEffect w in
  let fetched id :=
    frame w' = {| activeJobId := Some id; jobData := jobData (frame w);
                  error := error (frame w); loading := true |} ∧
    requests w' = requests w ++ [job_status_url id] in
  match cached_snapshot (localStorage w), items (localStorage w) !! "lastJobId" with
  | CorruptSnapshot, _ =>
      o = Return None ∧ frame w' = frame w ∧ socket w' = socket w ∧
      requests w' = requests w ∧ localStorage w' = localStorage w ∧
      console w' = console w ++
        [console_error_entry [Txt "Error retrieving job data from localStorage:";
                              Exc SyntaxError]]
  | _, None => o = Return None ∧ w' = w
  | snap, Some id =>
      if String.eqb id "" then o = Return None ∧ w' = w
      else
        o = Return (Some OffProcessingEvents) ∧
        localStorage w' = localStorage w ∧ bound_to id w' ∧
        match snap with
        | Snapshot v =>
            if truthy v then
              frame w' = {| activeJobId := Some id; jobData := v;
                            error := error (frame w); loading := loading (frame w) |} ∧
              requests w' = requests w
            else fetched id
        | _ => fetched id
        end
  end.
Proof.
  cbv zeta. unfold cached_snapshot, job_status_url.
  unfold mountEffect, getLastJobData, JSON_parse_M, joinJobRoom, getSocket,
    bound_to, listeners_of, table.
  destruct w as [f st so co rq]. unfold_M; red_world.
  destruct (items st !! "lastJobId") as [id|];
    destruct (items st !! "lastJobData") as [str|]; cbn [truthy_str truthy negb].
  all: repeat match goal with
              | |- context [if negb (String.eqb ?a ?b) then _ else _] =>
                  destruct (String.eqb a b) eqn:?; cbn [negb truthy truthy_str]
              | |- context [match JSON_parse ?s with _ => _ end] =>
                  destruct (JSON_parse s); cbn [negb truthy truthy_str]
              | |- context [if truthy ?v then _ else _] =>
                  destruct (truthy v) eqn:?; cbn [negb truthy truthy_str]
              end.
  all: red_world; try done.
  all: destruct so; red_world; split_and?; try reflexivity.
  all: repeat match goal with
              | |- ∃ _, _ => eexists
              | |- _ ∧ _ => split
              end.
  all: try (by simplify_map_eq); auto.
Qed.


(** X10. A cache without a usable job id (no [lastJobId], or the empty string)
    makes the mount effect a no-op: it returns no cleanup, tracks nothing,
    creates no socket and issues no request. *)
Theorem mount_without_job_id_does_nothing w :
  truthy_str (items (localStorage w) !! "lastJobId") = false →
  let w' := exec mountEffect w in
  outcome mountEffect w = Return None ∧
  frame w' = frame w ∧ socket w' = socket w ∧ requests w' = requests w ∧
  localStorage w' = localStorage w.
Proof.
  intros Hid. pose proof (mountEffect_summary w) as Hm. cbv zeta in Hm.
  destruct (cached_snapshot (localStorage w));
    destruct (items (localStorage w) !! "lastJobId") as [id|]; cbn in Hid.
  all: try (apply negb_false_iff in Hid; rewrite Hid in Hm).
  all: try (destruct Hm as [-> ->]; done).
  all: by destruct Hm as (? & ? & ? & ? & ? & _).
Qed.

(** X11. Unmounting releases the listeners: when the mount effect tracked a
    cached job, the cleanup it returned leaves no push listener, so later
    push events for that job are dropped. *)
Theorem unmount_releases_listeners id w :
  items (localStorage w) !! "lastJobId" = Some id → id ≠ "" →
  cached_snapshot (localStorage w) ≠ CorruptSnapshot →
  ∃ cleanup,
    outcome mountEffect w = Return (Some cleanup) ∧
    bound_to id (exec mountEffect w) ∧
    let w2 := exec (run_cleanup cleanup) (exec mountEffect w) in
    frame w2 = frame (exec mountEffect w) ∧
    ∀ ev d, push_event ev → dispatch ev d w2 = (Return (), w2).
Proof.
  intros Hid Hne Hsnap. apply String.eqb_neq in Hne.
  pose proof (mountEffect_summary w) as Hm. cbv zeta in Hm.
  rewrite Hid, Hne in Hm.
  assert (Hb : outcome mountEffect w = Return (Some OffProcessingEvents) ∧
               bound_to id (exec mountEffect w)).
  { destruct (cached_snapshot (localStorage w)); [| done |];
      by destruct Hm as (? & _ & ? & _). }
  destruct Hb as [Ho Hb]. exists OffProcessingEvents.
  split; [done|]. split; [done|]. intros w2. split; [reflexivity|].
  intros ev d Hev. apply dispatch_no_listener.
  destruct (run_cleanup_listeners OffProcessingEvents (exec mountEffect w)) as (? & ? & _).
  by destruct Hev as [-> | ->].
Qed.

(** Reloading the page on a cache that holds an id and the stored text of
    a snapshot gives that snapshot back. *)
Lemma resume_stored_snapshot st id d :
  items st !! "lastJobId" = Some id → id ≠ "" →
  items st !! "lastJobData" = Some (JSON_stringify d) →
  JSON_stringify d ≠ "" → JSON_parse (JSON_stringify d) = Some d → truthy d = true →
  let w' := exec mountEffect (initial st) in
  frame w' = {| activeJobId := Some id; jobData := d; error := None; loading := false |} ∧
  requests w' = [] ∧ bound_to id w'.
Proof.
  intros Hid Hne Hdata Htext Hparse Htruthy. apply String.eqb_neq in Hne, Htext.
  pose proof (mountEffect_summary (initial st)) as Hm. cbv zeta in Hm.
  unfold cached_snapshot in Hm. cbn [initial localStorage] in Hm.
  rewrite Hid, Hdata, Htext, Hparse, Hne, Htruthy in Hm.
  by destruct Hm as (_ & _ & ? & ? & ?).
Qed.

(** X12. Round trip through the cache: a job created with an initial snapshot,
    where the storage accepts both writes, is back after a reload of the
    page, with the same id and the same snapshot, and without any request;
    provided [JSON.parse] reads back what [JSON.stringify] wrote. *)
Theorem new_job_survives_reload j d w c w1 :
  handleNewJobCreated j (Some d) w = (Return c, w1) →
  truthy d = true → j ≠ "" →
  over_quota (quota (localStorage w))
    (<["lastJobData" := JSON_stringify d]> (items (localStorage w))) = false →
  JSON_stringify d ≠ "" → JSON_parse (JSON_stringify d) = Some d →
  let w2 := exec mountEffect (initial (localStorage w1)) in
  frame w2 = {| activeJobId := Some j; jobData := d; error := None; loading := false |} ∧
  requests w2 = [] ∧ bound_to j w2.
Proof.
  intros E Htruthy Hne Hfits Htext Hparse.
  apply resume_stored_snapshot; try done.
  - by destruct (handleNewJobCreated_cases _ _ _ _ _ E) as [[? _] | (_ & _ & _ & ?)].
  - revert E. unfold handleNewJobCreated, joinJobRoom, getSocket.
    destruct w as [f st so co rq]. rewrite Htruthy. unfold_M; red_world.
    rewrite Hfits. red_world. quota_cases; destruct so; red_world;
      intros [= <- <-]; red_world; try done.
    all: by rewrite lookup_insert_ne, lookup_insert_eq.
Qed.

(** X13. The same for a completion event: once the cache holds the id of the
    bound job and the storage accepts the snapshot, a reload shows the
    completed job without a request. *)
Theorem completed_job_survives_reload j d w :
  bound_to j w → carries_job_id d j →
  items (localStorage w) !! "lastJobId" = Some j → j ≠ "" →
  over_quota (quota (localStorage w))
    (<["lastJobData" := JSON_stringify d]> (items (localStorage w))) = false →
  JSON_stringify d ≠ "" → JSON_parse (JSON_stringify d) = Some d →
  let w1 := exec (dispatch "processing_complete" (Some d)) w in
  let w2 := exec mountEffect (initial (localStorage w1)) in
  frame w2 = {| activeJobId := Some j; jobData := d; error := None; loading := false |} ∧
  requests w2 = [] ∧ bound_to j w2.
Proof.
  intros [_ (cb & Hc & Hcb)] Hd Hid Hne Hfits Htext Hparse w1.
  assert (Hitems : items (localStorage w1)
                   = <["lastJobData" := JSON_stringify d]> (items (localStorage w))).
  { unfold w1. cbv [dispatch exec]. rewrite Hc.
    unfold carries_job_id, job_id_of in Hd. destruct d as [| | | | |ms]; try done.
    cbn [run_listeners run_listener get_prop]. unfold_M. rewrite Hd.
    cbn [strict_eq_str]. rewrite String.eqb_refl.
    destruct w as [f st so co rq]. red_world.
    destruct Hcb as [-> | ->]; cbn [run_callback]; unfold_M; red_world;
      by rewrite Hfits. }
  apply resume_stored_snapshot; try done.
  - rewrite Hitems. by rewrite lookup_insert_ne.
  - rewrite Hitems. by rewrite lookup_insert_eq.
  - unfold carries_job_id, job_id_of in Hd. by destruct d.
Qed.

End MountAndResume.
Section Edges.
Context `{JSONBuiltin}.

(** X14. [getLastJobData] never throws and changes nothing but the console.  It
    returns the stored id with the parsed snapshot, or with [null] when there
    is no snapshot text; when the text does not parse it logs the error and
    returns [null] for both, so the stored id is lost with the snapshot. *)
Theorem getLastJobData_recovers_from_corrupt_cache w :
  getLastJobData w
  = match cached_snapshot (localStorage w) with
    | Snapshot v => (Return (items (localStorage w) !! "lastJobId", v), w)
    | NoSnapshot => (Return (items (localStorage w) !! "lastJobId", JNull), w)
    | CorruptSnapshot =>
        (Return (None, JNull),
         with_console
           (λ c, c ++ [console_error_entry
                         [Txt "Error retrieving job data from localStorage:";
                          Exc SyntaxError]]) w)
    end.
Proof.
  unfold getLastJobData, cached_snapshot, JSON_parse_M. unfold_M.
  destruct (items (localStorage w) !! "lastJobData") as [str|]; cbn [truthy_str];
    [|done].
  destruct (String.eqb str ""); cbn [negb]; [done|].
  by destruct (JSON_parse str).
Qed.

(** X15. Edge cases of the room filter, with the listeners bound to [j].  An
    event without a payload, or with [null], makes the listener throw a
    [TypeError] out of the delivery; a payload that is no object, has no
    [job_id], or has a [job_id] that is not the string [j] (a number, say) is
    ignored.  In all these cases nothing changes. *)
Theorem push_payload_edge_cases j ev w :
  bound_to j w → push_event ev →
  (∃ msg, dispatch ev None w = (Throw (TypeError msg), w)) ∧
  (∃ msg, dispatch ev (Some JNull) w = (Throw (TypeError msg), w)) ∧
  (∀ d, d ≠ JNull → job_id_of d ≠ Some (JStr j) →
        dispatch ev (Some d) w = (Return (), w)).
Proof.
  intros Hb Hev. split_and!.
  - destruct Hb as [[cu Hu] (cc & Hc & _)].
    destruct Hev as [-> | ->]; rewrite dispatch_unfold; [rewrite Hu | rewrite Hc];
      by eexists.
  - destruct Hb as [[cu Hu] (cc & Hc & _)].
    destruct Hev as [-> | ->]; rewrite dispatch_unfold; [rewrite Hu | rewrite Hc];
      by eexists.
  - intros d Hnull Hid. rewrite dispatch_unfold.
    apply (run_listeners_other_id _ j); [by apply bound_to_push_listeners | done |].
    destruct (job_id_of d) as [[| | |s| |]|]; try done. cbn.
    apply String.eqb_neq. congruence.
Qed.

(** X16. A call of [handleNewJobCreated] that returns switches the binding: from
    then on a push event for any other job is dropped without a trace, and
    the completion event of the new job is accepted as [jobData]. *)
Theorem new_job_switches_binding a b data d d' ev w c w1 :
  handleNewJobCreated b data w = (Return c, w1) →
  a ≠ b → push_event ev → carries_job_id d a → carries_job_id d' b →
  dispatch ev (Some d) w1 = (Return (), w1) ∧
  frame (exec (dispatch "processing_complete" (Some d')) w1)
  = {| activeJobId := Some b; jobData := d'; error := None;
       loading := loading (frame w) |}.
Proof.
  intros E Hab Hev Hd Hd'.
  destruct (handleNewJobCreated_cases _ _ _ _ _ E) as [[? _] | (_ & Hb & _)];
    [discriminate|].
  split; [by apply (dispatch_other_id a b)|].
  rewrite (complete_event_frame b d' w1 Hb Hd').
  pose proof (handleNewJobCreated_frame b data w) as Hf.
  unfold exec in Hf. rewrite E in Hf. cbn [snd] in Hf. by rewrite Hf.
Qed.

(** X17. The fetch chain does not look at the job id: a completed result that
    arrives after the user started another job still replaces [jobData], and
    where the storage accepts it, the cache then pairs the new job's id with
    the old job's snapshot. *)
Theorem late_fetch_result_overwrites_new_job a b d st w c w1 :
  handleNewJobCreated b None w = (Return c, w1) →
  a ≠ b → carries_job_id d a →
  response_ok st = true → completed_with_payload d = true →
  let w2 := exec (onFetchResult (Response st (Some d))) w1 in
  activeJobId (frame w2) = Some b ∧ jobData (frame w2) = d ∧
  (over_quota (quota (localStorage w1))
     (<["lastJobData" := JSON_stringify d]> (items (localStorage w1))) = false →
   items (localStorage w2) !! "lastJobId" = Some b ∧
   items (localStorage w2) !! "lastJobData" = Some (JSON_stringify d)).
Proof.
  intros E Hab Hd Hok Hc w2.
  assert (Hact : activeJobId (frame w1) = Some b).
  { pose proof (handleNewJobCreated_frame b None w) as Hf.
    unfold exec in Hf. rewrite E in Hf. cbn [snd] in Hf. by rewrite Hf. }
  assert (Hid : items (localStorage w1) !! "lastJobId" = Some b).
  { by destruct (handleNewJobCreated_cases _ _ _ _ _ E) as [[? _] | (_ & _ & _ & ?)]. }
  unfold w2. rewrite (fetch_completed_frame st d w1 Hok Hc). split_and!; try done.
  intros Hfits. clear w2 E.
  unfold onFetchResult, fetch_then_response, fetch_then_data, fetch_catch, get_prop.
  unfold_M. rewrite Hok. cbn [negb].
  destruct d as [| | | | |ms]; try done. cbn [completed_with_payload] in Hc.
  apply andb_true_iff in Hc as [-> ->]. destruct w1 as [f s so co rq].
  red_world. rewrite Hfits. red_world.
  split; [by rewrite lookup_insert_ne | by rewrite lookup_insert_eq].
Qed.

End Edges.
Section PullHelper.

Lemma length_append (a b : string) :
  String.length (a +:+ b) = (String.length a + String.length b)%nat.
Proof. induction a as [|c a IH]; simpl; [done | by f_equal]. Qed.

Lemma append_inj_r (a b s : string) : a +:+ s = b +:+ s → a = b.
Proof.
  revert b. induction a as [|c a IH]; intros [|c' b] E.
  - done.
  - apply (f_equal String.length) in E. rewrite !length_append in E.
    cbn [String.length] in E. lia.
  - apply (f_equal String.length) in E. rewrite !length_append in E.
    cbn [String.length] in E. lia.
  - cbn in E. injection E as -> E. f_equal. by apply IH.
Qed.

(** X18. [getJobStatus] never swallows a failure.  When the request fails (no
    response, a status outside 200-299, a body that is not JSON) it writes
    one line to [console.error] and throws the same error again; for a
    refused status the error message ends with the status code, so that two
    statuses never give the same message.  It touches neither the session,
    nor the cache, nor the socket. *)
Theorem getJobStatus_logs_and_rethrows env j r w :
  fetch_failed r = true →
  ∃ e,
    getJobStatus env j r w
    = (Throw e,
       with_console (λ c, c ++ [console_error_entry
                                  [Txt "Error fetching job status:"; Exc e]])
         (with_requests (λ q, q ++ [API_URL env +:+ "/job_status/" +:+ j]) w)) ∧
    (∀ st body, r = Response st body → response_ok st = false →
                e = Error ("Failed to get job status: " +:+ pretty st)) ∧
    (∀ st st' : nat, "Failed to get job status: " +:+ pretty st
                     = "Failed to get job status: " +:+ pretty st' → st = st').
Proof.
  intros Hfail. unfold getJobStatus. unfold_M.
  assert (Hinj : ∀ st st' : nat,
             "Failed to get job status: " +:+ pretty st
             = "Failed to get job status: " +:+ pretty st' → st = st').
  { intros st st' E. apply (inj (String.app _)) in E. by apply (inj pretty) in E. }
  destruct r as [|st body]; cbn [fetch_failed] in Hfail.
  - eexists. split_and!; [reflexivity | done | exact Hinj].
  - destruct (response_ok st) eqn:Hok; cbn [negb orb] in *.
    + destruct body; [done|]. eexists. split_and!; [reflexivity | | exact Hinj].
      intros ?? [= <- <-] ?. congruence.
    + eexists. split_and!; [reflexivity | | exact Hinj].
      by intros ?? [= <- <-] _.
Qed.

(** With a response in 200-299 and a JSON body, [getJobStatus] returns the
    body and writes nothing to the console. *)
Lemma getJobStatus_returns_body env j st d w :
  response_ok st = true →
  getJobStatus env j (Response st (Some d)) w
  = (Return d, with_requests (λ q, q ++ [API_URL env +:+ "/job_status/" +:+ j]) w).
Proof. intros Hok. unfold getJobStatus. unfold_M. by rewrite Hok. Qed.

(** X19. The mount effect does not go through [getJobStatus]: for a cached id
    without a snapshot its request goes to the local server, whatever
    [VITE_API_URL] says, so the two ask for the same URL exactly when the
    configured base URL is that of the local server. *)
Theorem mount_fetch_ignores_configured_url `{JSONBuiltin} env j r w :
  items (localStorage w) !! "lastJobId" = Some j → j ≠ "" →
  items (localStorage w) !! "lastJobData" = None →
  let by_mount := requests (exec mountEffect w) in
  let by_helper := requests (exec (getJobStatus env j r) w) in
  by_mount = requests w ++ ["http://localhost:5000/job_status/" +:+ j] ∧
  by_helper = requests w ++ [API_URL env +:+ "/job_status/" +:+ j] ∧
  (by_helper = by_mount ↔ API_URL env = "http://localhost:5000").
Proof.
  intros Hid Hne Hdata.
  assert (Hhelper : requests (exec (getJobStatus env j r) w)
                    = requests w ++ [API_URL env +:+ "/job_status/" +:+ j]).
  { unfold getJobStatus. unfold_M. destruct r as [|st [d|]]; try reflexivity;
      destruct (response_ok st); reflexivity. }
  assert (Hmount : requests (exec mountEffect w)
                   = requests w ++ ["http://localhost:5000/job_status/" +:+ j]).
  { pose proof (mountEffect_summary w) as Hm. cbv zeta in Hm.
    unfold cached_snapshot in Hm. rewrite Hid, Hdata in Hm.
    apply String.eqb_neq in Hne. rewrite Hne in Hm.
    by destruct Hm as (_ & _ & _ & _ & ?). }
  cbv zeta. rewrite Hhelper, Hmount. split_and!; [done | done | split].
  - intros E. apply app_inv_head in E. injection E as E.
    replace ("http://localhost:5000/job_status/" +:+ j)
      with ("http://localhost:5000" +:+ "/job_status/" +:+ j) in E by reflexivity.
    by apply append_inj_r in E.
  - by intros ->.
Qed.

End PullHelper.

Section AppEffects.

Lemma title_effect_sets_page pathname p :
  document_title (title_effect pathname p) = (page_texts pathname).1 ∧
  meta_description (title_effect pathname p)
  = (λ _, (page_texts pathname).2) <$> meta_description p ∧
  scroll (title_effect pathname p) = scroll p.
Proof.
  unfold title_effect, page_texts.
  destruct (String.eqb pathname "/");
    [|destruct (String.eqb pathname "/action-points");
      [|destruct (String.eqb pathname "/upload-test")]].
  all: by destruct p as [sc t [m|]].
Qed.

(** X20. The title effect gives every path one of three non-empty titles, a path
    that the [switch] does not list the title of the root path; so the
    document title is set on every navigation.  The description is written
    only into a tag that exists: the effect never creates one, and it leaves
    the scroll position alone. *)
Theorem title_effect_sets_known_title pathname p :
  let p' := title_effect pathname p in
  document_title p' = (page_texts pathname).1 ∧
  document_title p' ≠ "" ∧
  (document_title p' = "Minutes Frame" ∨ document_title p' = "Action Points" ∨
   document_title p' = "Upload Test") ∧
  (pathname ≠ "/action-points" → pathname ≠ "/upload-test" →
   document_title p' = "Minutes Frame") ∧
  meta_description p' = (λ _, (page_texts pathname).2) <$> meta_description p ∧
  scroll p' = scroll p.
Proof.
  unfold title_effect, page_texts.
  destruct (String.eqb pathname "/") eqn:E1;
    [|destruct (String.eqb pathname "/action-points") eqn:E2;
      [|destruct (String.eqb pathname "/upload-test") eqn:E3]].
  all: cbn; destruct p as [sc t [m|]]; cbn; split_and!; auto.
  all: try apply String.eqb_eq in E2; try apply String.eqb_eq in E3; congruence.
Qed.

Lemma title_effect_scroll pathname p : scroll (title_effect pathname p) = scroll p.
Proof. by destruct (title_effect_sets_page pathname p) as (_ & _ & ?). Qed.

(** X21. A render scrolls to the top only when the action or the path differs
    from those of the render before (or there was none) and the action is
    not [POP]; in every other case the scroll position is kept.  So a render
    that repeats the action and the path of the render before, a second
    [PUSH] to the current path say, changes nothing at all. *)
Theorem render_scrolls_on_changed_navigation prev action pathname p :
  scroll (App prev action pathname p)
  = (if decide (prev = Some (action, pathname)) then scroll p
     else match action with POP => scroll p | _ => (0%Z, 0%Z) end) ∧
  App (Some (action, pathname)) action pathname p = p.
Proof.
  split.
  - unfold App, useEffect.
    assert (Hs : ∀ q, scroll (match snd <$> prev with
                              | Some d => if decide (d = pathname) then q
                                          else title_effect pathname q
                              | None => title_effect pathname q
                              end) = scroll q).
    { intros q. destruct (snd <$> prev); [case_decide|];
        auto using title_effect_scroll. }
    rewrite Hs. destruct prev as [d|].
    + destruct (decide (d = (action, pathname))) as [->|Hne].
      * by rewrite decide_True.
      * rewrite decide_False by congruence. by destruct action.
    + rewrite decide_False by done. by destruct action.
  - unfold App, useEffect. cbn [fmap option_fmap option_map snd].
    by rewrite !decide_True.
Qed.

Lemma App_titles_in_step prev action pathname p0 p :
  titles_in_step prev p0 p →
  titles_in_step (Some (action, pathname)) p0 (App prev action pathname p).
Proof.
  assert (Hs : ∀ q, document_title (scroll_effect action q) = document_title q ∧
                    meta_description (scroll_effect action q) = meta_description q)
    by (intros q; by destruct action).
  assert (Ht : ∀ q, meta_description q = meta_description p0
                    ∨ (∃ pn, meta_description q
                             = (λ _, (page_texts pn).2) <$> meta_description p0) →
                    titles_in_step (Some (action, pathname)) p0
                      (title_effect pathname q)).
  { intros q Hq. destruct (title_effect_sets_page pathname q) as (Ht & Hm & _).
    split; [done|]. rewrite Hm.
    destruct Hq as [-> | [pn ->]]; [done|]. by destruct (meta_description p0). }
  unfold titles_in_step at 1. unfold App, useEffect.
  destruct prev as [[a pn]|]; cbn [fmap option_fmap option_map snd].
  - intros [Htitle Hmeta].
    assert (Hq : ∀ q, document_title q = document_title p →
                      meta_description q = meta_description p →
                      titles_in_step (Some (action, pathname)) p0
                        (if decide (pn = pathname) then q
                         else title_effect pathname q)).
    { intros q Hqt Hqm. case_decide as E.
      - subst pn. split; congruence.
      - apply Ht. right. exists pn. congruence. }
    destruct (decide ((a, pn) = (action, pathname))); apply Hq; try done;
      apply Hs.
  - intros ->. apply Ht. left. apply Hs.
Qed.

(** X25. The dependency [[pathname]] of the second effect is enough: after any
    run of renders the title is the one of the current path, and the
    description tag, if the document had one at the first render, holds the
    description of the current path; a document without the tag stays
    without. *)
Theorem title_follows_pathname navs action pathname p :
  let p' := App_renders None (navs ++ [(action, pathname)]) p in
  document_title p' = (page_texts pathname).1 ∧
  meta_description p' = (λ _, (page_texts pathname).2) <$> meta_description p.
Proof.
  cbv zeta.
  change (titles_in_step (Some (action, pathname)) p
            (App_renders None (navs ++ [(action, pathname)]) p)).
  assert (Hinit : titles_in_step None p p) by done. revert Hinit.
  generalize p at 2 4. generalize (@None (NavigationType * string)).
  induction navs as [|[a pn] navs IH]; intros prev q Hq.
  - by apply App_titles_in_step.
  - cbn [app App_renders]. apply IH. by apply App_titles_in_step.
Qed.

End AppEffects.

Section FetchChainAndCache.
Context `{JSONBuiltin}.

(** X22. Whatever the request brings, the chain settles: it never throws, it
    clears [loading], and it leaves the active id, the socket and the list
    of requests alone. *)
Theorem fetch_chain_always_settles r w :
  let w' := exec (onFetchResult r) w in
  outcome (onFetchResult r) w = Return () ∧ loading (frame w') = false ∧
  activeJobId (frame w') = activeJobId (frame w) ∧
  socket w' = socket w ∧ requests w' = requests w.
Proof.
  destruct (onFetchResult_frame r w) as (? & ? & ? & ?).
  split; [apply onFetchResult_returns | done].
Qed.

(** X23. A response in 200-299 whose JSON body is [null] is reported like a
    failed request: reading [data.status] throws, the [catch] of the chain
    sets the banner, and [jobData] and the cache stay as they were. *)
Theorem fetch_null_body_reported_as_failure st w :
  response_ok st = true →
  let w' := exec (onFetchResult (Response st (Some JNull))) w in
  frame w' = {| activeJobId := activeJobId (frame w); jobData := jobData (frame w);
                error := Some "Failed to load job data. Please try again.";
                loading := false |} ∧
  localStorage w' = localStorage w ∧
  ∃ msg, console w' = console w ++
    [console_log_entry [Txt "Fetched job data:"; Val (Some JNull)];
     console_error_entry [Txt "Error fetching job data:"; Exc (TypeError msg)]].
Proof.
  intros Hok.
  unfold onFetchResult, fetch_then_response, fetch_then_data, fetch_catch, get_prop.
  unfold_M. rewrite Hok. cbn [negb]. destruct w as [f s so co rq]. red_world.
  split_and!; try reflexivity. eexists. by rewrite <- app_assoc.
Qed.

Lemma run_listener_keeps_id l d w :
  items (localStorage (exec (run_listener l d) w)) !! "lastJobId"
  = items (localStorage w) !! "lastJobId".
Proof.
  destruct l as [| |j cb|j cb]; try reflexivity.
  all: destruct d as [d|]; [|reflexivity].
  all: unfold exec, run_listener, get_prop; unfold mbind, M_bind, bind.
  all: destruct d; cbn [throw ret snd fst]; try reflexivity.
  all: destruct (strict_eq_str _ _); cbn [ret snd]; try reflexivity.
  all: match goal with
       | |- context [run_callback ?cb ?d ?w] =>
           destruct (run_callback_frame cb d w) as (_ & _ & _ & _ & _ & _ & Hk);
           by apply Hk
       end.
Qed.

Lemma dispatch_keeps_id ev d w :
  items (localStorage (exec (dispatch ev d) w)) !! "lastJobId"
  = items (localStorage w) !! "lastJobId".
Proof.
  unfold exec. rewrite dispatch_unfold. generalize (listeners_of ev w) as ls.
  intros ls. revert w. induction ls as [|l ls IH]; intros w; [reflexivity|].
  cbn [run_listeners]. unfold mbind, M_bind, bind.
  pose proof (run_listener_keeps_id l d w) as Hl. unfold exec in Hl.
  destruct (run_listener l d w) as [[[]|e] w1]; cbn [snd] in *; [|done].
  by rewrite IH.
Qed.

Lemma onFetchResult_keeps_id r w :
  items (localStorage (exec (onFetchResult r) w)) !! "lastJobId"
  = items (localStorage w) !! "lastJobId".
Proof.
  unfold onFetchResult, fetch_then_response, fetch_then_data, fetch_catch, get_prop.
  destruct r as [|st [d|]]; unfold_M; try done;
    destruct (response_ok st); cbn [negb]; try done.
  destruct d; try done.
  branch_cases; red_world; quota_cases; try done.
  all: try (by rewrite lookup_insert_ne).
  all: destruct (member "error" members) as [e|]; [destruct (truthy e)|]; done.
Qed.

Lemma mountEffect_storage w : localStorage (exec mountEffect w) = localStorage w.
Proof.
  pose proof (mountEffect_summary w) as Hm. cbv zeta in Hm.
  destruct (cached_snapshot (localStorage w));
    destruct (items (localStorage w) !! "lastJobId") as [id|];
    try destruct (String.eqb id "").
  all: first [ by destruct Hm as [_ ->]
             | by destruct Hm as (_ & _ & _ & _ & ? & _)
             | by destruct Hm as (_ & ? & _) ].
Qed.

(** X24. With a storage that never refuses a write, the cache always knows the
    active job: whenever [activeJobId] is set, [lastJobId] holds the same id,
    so a reload of the page resumes the job the user was looking at. *)
Theorem active_job_is_cached st w j :
  quota st = None → reachable st w →
  activeJobId (frame w) = Some j → items (localStorage w) !! "lastJobId" = Some j.
Proof.
  intros Hq Hw. revert j. induction Hw as [|w a Hw IH]; intros j Hj.
  - done.
  - destruct a as [|b data|ev d|r| |c]; cbn [run_action] in *.
    + rewrite mountEffect_storage.
      destruct (mountEffect_tracks w)
        as (w1 & Hw1 & [(E & Hf & _) | (id & Ha & Hid & _ & E)]); rewrite E in Hj.
      * apply IH. by rewrite <- Hf.
      * destruct (joinJobRoom_frame id (Some EffectOnUpdate) (Some EffectOnComplete) w1)
          as (Hf & _).
        rewrite Hf, Ha in Hj. congruence.
    + rewrite handleNewJobCreated_frame in Hj. cbn in Hj. injection Hj as <-.
      pose proof (handleNewJobCreated_unlimited b data w) as Hret.
      rewrite (reachable_quota st w Hw) in Hret. specialize (Hret Hq).
      unfold outcome, exec in *.
      destruct (handleNewJobCreated b data w) as [o w'] eqn:E. cbn in Hret |- *.
      by destruct (handleNewJobCreated_cases _ _ _ _ _ E) as [[? _] | (_ & _ & _ & ?)];
        [congruence|].
    + rewrite dispatch_keeps_id. apply IH. by rewrite dispatch_active in Hj.
    + rewrite onFetchResult_keeps_id. apply IH.
      by destruct (onFetchResult_frame r w) as (_ & _ & <- & _).
    + apply IH. exact Hj.
    + destruct c. apply IH. exact Hj.
Qed.

End FetchChainAndCache.

(** * Closed runs

    The statements above at concrete caches and payloads, with the JSON
    texts of [JSONText]. *)
Section ClosedRuns.
Import JSONText Scenario.

(** C1, at the input where the code departs from it.  The page tracks [J1];
    the storage is full, so in [handleNewJobCreated "J-200"] the write of the
    id throws after [activeJobId] was set and before [joinJobRoom] is reached.
    The listeners of [J1] stay bound, and a later [processing_complete] for
    [J1] replaces [jobData] although the active id is [J-200]. *)
Theorem C1_stale_push_accepted_after_failed_id_write :
  let w0 := mounted cache_full in
  let w1 := exec (handleNewJobCreated "J-200" None) w0 in
  let w2 := exec (dispatch "processing_complete" (Some completed_J1)) w1 in
  outcome (handleNewJobCreated "J-200" None) w0 = Throw QuotaExceededError ∧
  activeJobId (frame w1) = Some "J-200" ∧
  listeners_of "processing_complete" w1 = [RoomComplete "J1" EffectOnComplete] ∧
  carries_job_id completed_J1 "J1" ∧ "J1" ≠ "J-200" ∧
  jobData (frame w1) = JNull ∧
  jobData (frame w2) = completed_J1.
Proof. vm_compute. split_and!; try reflexivity. discriminate. Qed.

(** C3, at the input where the code departs from it.  With a full storage
    the write of the job id in [handleNewJobCreated] is not caught: the call
    throws [QuotaExceededError], nothing is written to [console.error], and
    the socket is left as it was.  (The snapshot writes are caught, see
    [run_callback_returns] and [onFetchResult_returns].) *)
Theorem C3_id_write_failure_escapes :
  let w0 := mounted cache_full in
  let w1 := exec (handleNewJobCreated "J-200" None) w0 in
  outcome (handleNewJobCreated "J-200" None) w0 = Throw QuotaExceededError ∧
  filter (λ e, is_console_error e = true) (console w1) = [] ∧
  socket w1 = socket w0 ∧
  items (localStorage w1) !! "lastJobId" = Some "J1".
Proof. vm_compute. split_and!; reflexivity. Qed.



(** C4 as the specification states it fails here: the page waits for [J1] with [loading] set, the
    completion event for [J1] is accepted, and [loading] is still set. *)
Lemma C4_counterexample :
  let w0 := mounted cache_id_only in
  let w1 := exec (dispatch "processing_complete" (Some completed_J1)) w0 in
  bound_to "J1" w0 ∧ carries_job_id completed_J1 "J1" ∧
  jobData (frame w1) = completed_J1 ∧ loading (frame w1) ≠ false.
Proof.
  intros w0 w1. split_and!.
  - split; [by eexists|]. eexists. split; [reflexivity | by left].
  - reflexivity.
  - reflexivity.
  - intros E. vm_compute in E. discriminate E.
Qed.

Lemma C4_witness :
  bound_to "J1" (mounted cache_id_only) ∧ carries_job_id completed_J1 "J1" ∧
  let w0 := mounted cache_id_only in
  let w1 := exec (dispatch "processing_complete" (Some completed_J1)) w0 in
  let entry := <["lastJobData" := JSON_stringify completed_J1]> (items (localStorage w0)) in
  outcome (dispatch "processing_complete" (Some completed_J1)) w0 = Return () ∧
  frame w1 = {| activeJobId := activeJobId (frame w0); jobData := completed_J1;
                error := error (frame w0); loading := loading (frame w0) |} ∧
  socket w1 = socket w0 ∧ requests w1 = requests w0 ∧
  if over_quota (quota (localStorage w0)) entry
  then localStorage w1 = localStorage w0 ∧
       console w1 = console w0 ++
         [console_log_entry [Txt "Processing complete:"; Val (Some completed_J1)];
          console_error_entry [Txt "Error storing job data in localStorage:";
                               Exc QuotaExceededError]]
  else items (localStorage w1) = entry.
Proof.
  assert (Hb : bound_to "J1" (mounted cache_id_only)).
  { split; [by eexists|]. eexists. split; [reflexivity | by left]. }
  split; [exact Hb|]. split; [reflexivity|].
  exact (C4_complete_event_replaces_jobData "J1" completed_J1
           (mounted cache_id_only) Hb eq_refl).
Defined.



(** C7 as the specification states it fails here: the cached snapshot of [J1] has the status
    [processing], and the mount effect accepts it as [jobData] without setting
    [loading] and without a request. *)
Lemma C7_counterexample :
  let w1 := exec mountEffect (initial cache_processing) in
  items cache_processing !! "lastJobId" = Some "J1" ∧
  cached_snapshot cache_processing = Snapshot processing_J1 ∧
  member "status" [("status", JStr "processing"); ("job_id", JStr "J1")]
  = Some (JStr "processing") ∧
  jobData (frame w1) = processing_J1 ∧
  ¬ (loading (frame w1) = true ∧ requests w1 = [job_status_url "J1"]).
Proof.
  intros w1. split_and!; [reflexivity | by vm_compute | reflexivity | by vm_compute |].
  intros [E _]. vm_compute in E. discriminate E.
Qed.

Lemma C7_witness :
  items (localStorage (initial cache_processing)) !! "lastJobId" = Some "J1" ∧
  "J1" ≠ "" ∧
  let w0 := initial cache_processing in
  let w1 := exec mountEffect w0 in
  let joined :=
    bound_to "J1" w1 ∧
    emitted_of w1 = emitted_of w0 ++ [("rejoin_job", JObj [("job_id", JStr "J1")])] in
  let fetched :=
    frame w1 = {| activeJobId := Some "J1"; jobData := jobData (frame w0);
                  error := error (frame w0); loading := true |} ∧
    requests w1 = requests w0 ++ [job_status_url "J1"] ∧ joined in
  match cached_snapshot (localStorage w0) with
  | Snapshot v =>
      if truthy v then
        frame w1 = {| activeJobId := Some "J1"; jobData := v;
                      error := error (frame w0); loading := loading (frame w0) |} ∧
        requests w1 = requests w0 ∧ joined
      else fetched
  | NoSnapshot => fetched
  | CorruptSnapshot =>
      frame w1 = frame w0 ∧ requests w1 = requests w0 ∧ socket w1 = socket w0
  end.
Proof.
  assert (Hne : "J1" ≠ "") by discriminate.
  split; [reflexivity|]. split; [exact Hne|].
  exact (C7_resume_accepts_any_snapshot "J1" (initial cache_processing) eq_refl Hne).
Defined.

Lemma C8_witness :
  fetch_failed (Response 500 None) = true ∧
  let w0 := run_actions [Mount; SocketEvent "processing_complete" (Some completed_J1)]
              (initial cache_id_only) in
  let w1 := exec (onFetchResult (Response 500 None)) w0 in
  jobData (frame w0) = completed_J1 ∧
  outcome (onFetchResult (Response 500 None)) w0 = Return () ∧
  (∃ msg, error (frame w1) = Some msg ∧ msg ≠ "") ∧
  jobData (frame w1) = jobData (frame w0) ∧
  frame w1 = {| activeJobId := activeJobId (frame w0);
                jobData := jobData (frame w0);
                error := Some "Failed to load job data. Please try again.";
                loading := false |} ∧
  localStorage w1 = localStorage w0 ∧ socket w1 = socket w0 ∧
  requests w1 = requests w0.
Proof.
  split; [reflexivity|]. intros w0 w1. split; [by vm_compute|].
  exact (C8_fetch_failure_sets_error_only (Response 500 None) w0 eq_refl).
Defined.

(** C10 as the specification states it fails here: the storage is full, so
    the write of the longer id [J-200] is refused and the cache still holds
    the id [J1], while [J-200] is the active job. *)
Lemma C10_counterexample :
  let w0 := mounted cache_full in
  let w1 := exec (handleNewJobCreated "J-200" None) w0 in
  activeJobId (frame w1) = Some "J-200" ∧
  items (localStorage w1) !! "lastJobId" = Some "J1" ∧
  items (localStorage w1) !! "lastJobId" ≠ Some "J-200".
Proof. vm_compute. split_and!; [reflexivity | reflexivity | discriminate]. Qed.

(** C10 at a cache that holds the completed snapshot of [J1]: after
    [handleNewJobCreated "J2"] without a snapshot the cache pairs the id [J2]
    with the snapshot of [J1]. *)
Lemma C10_witness :
  let w0 := mounted cache_completed in
  let w1 := exec (handleNewJobCreated "J2" None) w0 in
  truthy_any None = false ∧
  over_quota (quota (localStorage w0)) (<["lastJobId" := "J2"]> (items (localStorage w0)))
  = false ∧
  carries_job_id completed_J1 "J1" ∧
  jobData (frame w1) = completed_J1 ∧
  items (localStorage w1) !! "lastJobData" = Some (stringify completed_J1) ∧
  items (localStorage w1) !! "lastJobId" = Some "J2" ∧
  activeJobId (frame w1) = Some "J2" ∧
  requests w1 = [].
Proof.
  intros w0 w1.
  destruct (C10_new_job_without_snapshot_keeps_old_snapshot "J2" None w0 eq_refl)
    as (Hjob & Hsnap & Hreq & Hactive & Hid).
  change (over_quota _ _) with false in Hid. cbv iota in Hid.
  destruct Hid as [_ Hid'].
  split; [reflexivity|]. split; [reflexivity|]. split; [reflexivity|].
  split; [exact Hjob|]. split; [exact Hsnap|]. split; [exact Hid'|].
  split; [exact Hactive | exact Hreq].
Defined.

End ClosedRuns.

(** * Closed runs of the further properties *)
Section MoreClosedRuns.
Import JSONText Scenario MoreScenarios.

Lemma reachable_run st acts w :
  reachable st w → reachable st (run_actions acts w).
Proof.
  revert w. induction acts as [|a acts IH]; intros w Hw; [exact Hw|].
  cbn. apply IH. by constructor.
Qed.

Lemma visit_reachable st : reachable st (run_actions visit (initial st)).
Proof. apply reachable_run. constructor. Qed.

Lemma fetch_completed_result_accepted_witness :
  let w := mounted cache_id_only in
  let w' := exec (onFetchResult (Response 200 (Some completed_J1))) w in
  response_ok 200 = true ∧ completed_with_payload completed_J1 = true ∧
  jobData (frame w') = completed_J1 ∧ loading (frame w') = false ∧
  items (localStorage w') !! "lastJobData" = Some (stringify completed_J1).
Proof.
  intros w w'.
  destruct (fetch_completed_result_accepted 200 completed_J1 w eq_refl eq_refl)
    as (_ & Hf & _ & _ & _ & Hitems).
  fold w' in Hf, Hitems. split; [reflexivity|]. split; [reflexivity|].
  rewrite Hf. split; [reflexivity|]. split; [reflexivity|].
  change (over_quota _ _) with false in Hitems. cbv iota in Hitems.
  rewrite Hitems. apply lookup_insert_eq.
Defined.

(** A second [PUSH] to the current path keeps the scroll position of
    [a_page]; a [PUSH] to another path scrolls to the top and sets the title
    of that path. *)
Example repeated_push_keeps_scroll :
  scroll (App (Some (PUSH, "/")) PUSH "/" a_page) = (0%Z, 480%Z) ∧
  scroll (App (Some (PUSH, "/")) PUSH "/action-points" a_page) = (0%Z, 0%Z) ∧
  document_title (App (Some (PUSH, "/")) PUSH "/action-points" a_page)
  = "Action Points".
Proof. by vm_compute. Qed.

Lemma fetch_error_status_sets_banner_witness :
  let w := mounted cache_id_only in
  let w' := exec (onFetchResult (Response 200 (Some failed_J1))) w in
  response_ok 200 = true ∧ reports_error failed_J1 = true ∧
  textual_error failed_J1 = true ∧
  error (frame w') = Some "Error: Transcription failed" ∧
  jobData (frame w') = jobData (frame w).
Proof.
  intros w w'.
  destruct (fetch_error_status_sets_banner 200 failed_J1 w eq_refl eq_refl eq_refl)
    as (_ & Hf & _).
  fold w' in Hf. split; [reflexivity|]. split; [reflexivity|].
  split; [reflexivity|]. rewrite Hf. split; reflexivity.
Defined.

Lemma late_fetch_result_overwrites_new_job_witness :
  let w := mounted cache_id_only in
  let w1 := exec (handleNewJobCreated "J2" None) w in
  let w2 := exec (onFetchResult (Response 200 (Some completed_J1))) w1 in
  handleNewJobCreated "J2" None w = (Return OffProcessingEvents, w1) ∧
  "J1" ≠ "J2" ∧ carries_job_id completed_J1 "J1" ∧
  activeJobId (frame w2) = Some "J2" ∧ jobData (frame w2) = completed_J1 ∧
  items (localStorage w2) !! "lastJobId" = Some "J2" ∧
  items (localStorage w2) !! "lastJobData" = Some (stringify completed_J1).
Proof.
  intros w w1 w2.
  assert (E : handleNewJobCreated "J2" None w = (Return OffProcessingEvents, w1))
    by (by vm_compute).
  assert (Hne : "J1" ≠ "J2") by discriminate.
  destruct (late_fetch_result_overwrites_new_job "J1" "J2" completed_J1 200 w
              OffProcessingEvents w1 E Hne eq_refl eq_refl eq_refl)
    as (Ha & Hj & Hcache).
  destruct (Hcache eq_refl) as [Hid Hdata].
  split; [exact E|]. split; [exact Hne|]. split; [reflexivity|].
  split; [exact Ha|]. split; [exact Hj|]. split; [exact Hid | exact Hdata].
Defined.


Lemma new_job_survives_reload_witness :
  let w := initial cache_empty in
  let w1 := exec (handleNewJobCreated "J1" (Some completed_J1)) w in
  let w2 := exec mountEffect (initial (localStorage w1)) in
  handleNewJobCreated "J1" (Some completed_J1) w = (Return OffProcessingEvents, w1) ∧
  JSON_parse (JSON_stringify completed_J1) = Some completed_J1 ∧
  frame w2 = {| activeJobId := Some "J1"; jobData := completed_J1;
                error := None; loading := false |} ∧
  requests w2 = [] ∧ bound_to "J1" w2.
Proof.
  intros w w1 w2.
  assert (E : handleNewJobCreated "J1" (Some completed_J1) w
              = (Return OffProcessingEvents, w1)) by (by vm_compute).
  assert (Hparse : JSON_parse (JSON_stringify completed_J1) = Some completed_J1)
    by (by vm_compute).
  assert (Hne : "J1" ≠ "") by discriminate.
  assert (Htext : JSON_stringify completed_J1 ≠ "")
    by (intros Ht; vm_compute in Ht; discriminate Ht).
  split; [exact E|]. split; [exact Hparse|].
  exact (new_job_survives_reload "J1" completed_J1 w OffProcessingEvents w1
           E eq_refl Hne eq_refl Htext Hparse).
Defined.

Lemma completed_job_survives_reload_witness :
  let w := mounted cache_id_only in
  let w1 := exec (dispatch "processing_complete" (Some completed_J1)) w in
  let w2 := exec mountEffect (initial (localStorage w1)) in
  bound_to "J1" w ∧ carries_job_id completed_J1 "J1" ∧
  frame w2 = {| activeJobId := Some "J1"; jobData := completed_J1;
                error := None; loading := false |} ∧
  requests w2 = [] ∧ bound_to "J1" w2.
Proof.
  intros w w1 w2.
  assert (Hb : bound_to "J1" w).
  { split; [by eexists|]. eexists. split; [reflexivity | by left]. }
  assert (Hparse : JSON_parse (JSON_stringify completed_J1) = Some completed_J1)
    by (by vm_compute).
  assert (Hne : "J1" ≠ "") by discriminate.
  assert (Htext : JSON_stringify completed_J1 ≠ "")
    by (intros Ht; vm_compute in Ht; discriminate Ht).
  split; [exact Hb|]. split; [reflexivity|].
  exact (completed_job_survives_reload "J1" completed_J1 w Hb eq_refl eq_refl Hne
           eq_refl Htext Hparse).
Defined.

Lemma engine_writes_only_its_two_keys_witness :
  let w := run_actions visit (initial cache_with_theme) in
  reachable cache_with_theme w ∧
  items (localStorage w) !! "theme" = Some "dark" ∧
  is_Some (items (localStorage w) !! "lastJobId") ∧
  quota (localStorage w) = None.
Proof.
  intros w. pose proof (visit_reachable cache_with_theme) as Hw. fold w in Hw.
  destruct (engine_writes_only_its_two_keys cache_with_theme w Hw) as [Hq Hk].
  split; [exact Hw|].
  destruct (Hk "theme") as [_ Htheme], (Hk "lastJobId") as [Hid _].
  split; [|split; [|exact Hq]].
  - rewrite Htheme; [reflexivity | discriminate | discriminate].
  - apply Hid. by eexists.
Defined.

Lemma one_job_bound_at_a_time_witness :
  let w := run_actions visit (initial cache_id_only) in
  reachable cache_id_only w ∧
  listeners_of "processing_error" w = [] ∧
  ((listeners_of "processing_update" w = [] ∧ listeners_of "processing_complete" w = [])
   ∨ ∃ j cu cc, listeners_of "processing_update" w = [RoomUpdate j cu] ∧
                listeners_of "processing_complete" w = [RoomComplete j cc]).
Proof.
  intros w. pose proof (visit_reachable cache_id_only) as Hw. fold w in Hw.
  split; [exact Hw|]. exact (one_job_bound_at_a_time cache_id_only w Hw).
Defined.


Lemma connect_logs_exactly_once_witness :
  let w := run_actions visit (initial cache_id_only) in
  reachable cache_id_only w ∧ socket w ≠ None ∧
  dispatch "connect" None w
  = (Return (), with_console (λ c, c ++ [console_log_entry [Txt "Socket connected:"]]) w).
Proof.
  intros w. pose proof (visit_reachable cache_id_only) as Hw. fold w in Hw.
  assert (Hs : socket w ≠ None) by (intros E; vm_compute in E; discriminate E).
  split; [exact Hw|]. split; [exact Hs|].
  exact (connect_logs_exactly_once cache_id_only w None Hw Hs).
Defined.

Lemma client_sends_only_rejoin_job_witness :
  let w := run_actions visit (initial cache_id_only) in
  let m := ("rejoin_job", JObj [("job_id", JStr "J2")]) in
  reachable cache_id_only w ∧ m ∈ emitted_of w ∧
  ∃ j, m = ("rejoin_job", JObj [("job_id", JStr j)]).
Proof.
  intros w m. pose proof (visit_reachable cache_id_only) as Hw. fold w in Hw.
  assert (Hm : m ∈ emitted_of w).
  { change (emitted_of w) with [("rejoin_job", JObj [("job_id", JStr "J1")]); m].
    apply list_elem_of_further, list_elem_of_here. }
  split; [exact Hw|]. split; [exact Hm|].
  exact (client_sends_only_rejoin_job cache_id_only w m Hw Hm).
Defined.

Lemma error_is_null_or_non_empty_witness :
  let w := run_actions [Mount; FetchSettled (Response 500 None)] (initial cache_id_only) in
  reachable cache_id_only w ∧
  error (frame w) = Some "Failed to load job data. Please try again." ∧
  "Failed to load job data. Please try again." ≠ "".
Proof.
  intros w.
  assert (Hw : reachable cache_id_only w) by (apply reachable_run; constructor).
  assert (He : error (frame w) = Some "Failed to load job data. Please try again.")
    by reflexivity.
  split; [exact Hw|]. split; [exact He|].
  exact (error_is_null_or_non_empty cache_id_only w _ Hw He).
Defined.

Lemma only_mount_fetches_witness :
  let w := mounted cache_completed in
  let w' := run_action (NewJobCreated "J2" None) w in
  NewJobCreated "J2" None ≠ Mount ∧
  requests w' = requests w ∧
  (loading (frame w') = true → loading (frame w) = true).
Proof.
  intros w w'. assert (Ha : NewJobCreated "J2" None ≠ Mount) by discriminate.
  split; [exact Ha|]. exact (only_mount_fetches (NewJobCreated "J2" None) w Ha).
Defined.

Lemma push_payload_edge_cases_witness :
  let w := mounted cache_id_only in
  bound_to "J1" w ∧ push_event "processing_complete" ∧
  numeric_id_event ≠ JNull ∧ job_id_of numeric_id_event ≠ Some (JStr "J1") ∧
  dispatch "processing_complete" (Some numeric_id_event) w = (Return (), w) ∧
  ∃ msg, dispatch "processing_complete" None w = (Throw (TypeError msg), w).
Proof.
  intros w.
  assert (Hb : bound_to "J1" w).
  { split; [by eexists|]. eexists. split; [reflexivity | by left]. }
  assert (Hev : push_event "processing_complete") by (by right).
  assert (Hn : numeric_id_event ≠ JNull) by discriminate.
  assert (Hid : job_id_of numeric_id_event ≠ Some (JStr "J1")) by discriminate.
  destruct (push_payload_edge_cases "J1" "processing_complete" w Hb Hev)
    as (Hundef & _ & Hignored).
  split; [exact Hb|]. split; [exact Hev|]. split; [exact Hn|]. split; [exact Hid|].
  split; [exact (Hignored numeric_id_event Hn Hid) | exact Hundef].
Defined.

Lemma mount_without_job_id_does_nothing_witness :
  let w := initial cache_empty in
  truthy_str (items (localStorage w) !! "lastJobId") = false ∧
  outcome mountEffect w = Return None ∧
  frame (exec mountEffect w) = initial_frame ∧ socket (exec mountEffect w) = None ∧
  requests (exec mountEffect w) = [].
Proof.
  intros w.
  destruct (mount_without_job_id_does_nothing w eq_refl) as (Ho & Hf & Hs & Hr & _).
  split; [reflexivity|]. split; [exact Ho|].
  split; [exact Hf|]. split; [exact Hs | exact Hr].
Defined.

Lemma unmount_releases_listeners_witness :
  let w := initial cache_completed in
  items (localStorage w) !! "lastJobId" = Some "J1" ∧ "J1" ≠ "" ∧
  cached_snapshot (localStorage w) ≠ CorruptSnapshot ∧
  ∃ cleanup,
    outcome mountEffect w = Return (Some cleanup) ∧
    bound_to "J1" (exec mountEffect w) ∧
    let w2 := exec (run_cleanup cleanup) (exec mountEffect w) in
    frame w2 = frame (exec mountEffect w) ∧
    ∀ ev d, push_event ev → dispatch ev d w2 = (Return (), w2).
Proof.
  intros w. assert (Hne : "J1" ≠ "") by discriminate.
  assert (Hsnap : cached_snapshot (localStorage w) ≠ CorruptSnapshot)
    by (intros E; vm_compute in E; discriminate E).
  split; [reflexivity|]. split; [exact Hne|]. split; [exact Hsnap|].
  exact (unmount_releases_listeners "J1" w eq_refl Hne Hsnap).
Defined.

Lemma getJobStatus_logs_and_rethrows_witness :
  let w := mounted cache_id_only in
  fetch_failed (Response 404 None) = true ∧
  outcome (getJobStatus (Some "https://api.example.org") "J1" (Response 404 None)) w
  = Throw (Error "Failed to get job status: 404") ∧
  ∃ e,
    getJobStatus (Some "https://api.example.org") "J1" (Response 404 None) w
    = (Throw e,
       with_console (λ c, c ++ [console_error_entry
                                  [Txt "Error fetching job status:"; Exc e]])
         (with_requests
            (λ q, q ++ [API_URL (Some "https://api.example.org") +:+ "/job_status/" +:+ "J1"])
            w)) ∧
    (∀ st body, Response 404 None = Response st body → response_ok st = false →
                e = Error ("Failed to get job status: " +:+ pretty st)) ∧
    (∀ st st' : nat, "Failed to get job status: " +:+ pretty st
                     = "Failed to get job status: " +:+ pretty st' → st = st').
Proof.
  intros w. split; [reflexivity|]. split; [by vm_compute|].
  exact (getJobStatus_logs_and_rethrows (Some "https://api.example.org") "J1"
           (Response 404 None) w eq_refl).
Defined.

Lemma mount_fetch_ignores_configured_url_witness :
  let w := initial cache_id_only in
  let env := Some "https://api.example.org" in
  let by_mount := requests (exec mountEffect w) in
  let by_helper := requests (exec (getJobStatus env "J1" NetworkError) w) in
  items (localStorage w) !! "lastJobId" = Some "J1" ∧ "J1" ≠ "" ∧
  items (localStorage w) !! "lastJobData" = None ∧
  by_mount = ["http://localhost:5000/job_status/J1"] ∧
  by_helper = ["https://api.example.org/job_status/J1"] ∧
  by_helper ≠ by_mount.
Proof.
  intros w env by_mount by_helper. assert (Hne : "J1" ≠ "") by discriminate.
  destruct (mount_fetch_ignores_configured_url env "J1" NetworkError w
              eq_refl Hne eq_refl) as (Hm & Hh & Hiff).
  split; [reflexivity|]. split; [exact Hne|]. split; [reflexivity|].
  split; [exact Hm|]. split; [exact Hh|].
  intros E. apply Hiff in E. discriminate E.
Defined.

Lemma fetch_null_body_reported_as_failure_witness :
  let w := mounted cache_id_only in
  let w' := exec (onFetchResult (Response 200 (Some JNull))) w in
  response_ok 200 = true ∧
  error (frame w') = Some "Failed to load job data. Please try again." ∧
  jobData (frame w') = jobData (frame w) ∧ loading (frame w') = false.
Proof.
  intros w w'.
  destruct (fetch_null_body_reported_as_failure 200 w eq_refl) as (Hf & _).
  fold w' in Hf. split; [reflexivity|]. rewrite Hf. by split_and!.
Defined.

Lemma active_job_is_cached_witness :
  let w := run_actions visit (initial cache_id_only) in
  quota cache_id_only = None ∧ reachable cache_id_only w ∧
  activeJobId (frame w) = Some "J2" ∧
  items (localStorage w) !! "lastJobId" = Some "J2".
Proof.
  intros w. pose proof (visit_reachable cache_id_only) as Hw. fold w in Hw.
  assert (Ha : activeJobId (frame w) = Some "J2") by (by vm_compute).
  split; [reflexivity|]. split; [exact Hw|]. split; [exact Ha|].
  exact (active_job_is_cached cache_id_only w "J2" eq_refl Hw Ha).
Defined.

Lemma new_job_switches_binding_witness :
  let w := mounted cache_id_only in
  let w1 := exec (handleNewJobCreated "J2" None) w in
  handleNewJobCreated "J2" None w = (Return OffProcessingEvents, w1) ∧
  "J1" ≠ "J2" ∧ push_event "processing_complete" ∧
  carries_job_id completed_J1 "J1" ∧ carries_job_id completed_J2 "J2" ∧
  dispatch "processing_complete" (Some completed_J1) w1 = (Return (), w1) ∧
  jobData (frame (exec (dispatch "processing_complete" (Some completed_J2)) w1))
  = completed_J2.
Proof.
  intros w w1.
  assert (E : handleNewJobCreated "J2" None w = (Return OffProcessingEvents, w1))
    by (by vm_compute).
  assert (Hne : "J1" ≠ "J2") by discriminate.
  assert (Hev : push_event "processing_complete") by (by right).
  destruct (new_job_switches_binding "J1" "J2" None completed_J1 completed_J2
              "processing_complete" w OffProcessingEvents w1 E Hne Hev eq_refl eq_refl)
    as [Hdrop Hacc].
  split; [exact E|]. split; [exact Hne|]. split; [exact Hev|].
  split; [reflexivity|]. split; [reflexivity|]. split; [exact Hdrop|].
  by rewrite Hacc.
Defined.

End MoreClosedRuns.
